(** * middleware/download.js : the download handler

    A shallow embedding of [generateVCard] and [handleDownload], and the
    properties of the first-download lock, the export sheet and the contact
    cards.

    Conventions of the embedding.
    - JavaScript strings are [string]; the string methods the handler calls
      ([toUpperCase], [toLowerCase], [substring], [slice], [replace] with
      the pattern [/\D/g]) are defined on ASCII characters.
    - A value that may be [undefined] or [null] is an [option].
    - The fields of [req.body] are strings, as the interface types them.
    - [process.env], the spreadsheet writer of ExcelJS and
      [Date.prototype.toLocaleString] belong to the host; they are the
      fields of the class [Runtime].
    - The two mongoose models are not part of this file of the repository;
      a call on them is an operation of the type [prog], which is given a
      sequential and an interleaving semantics over the two collections. *)

From Stdlib Require Import ZArith Ascii String.
From stdpp Require Import gmap strings list fin_maps pretty relations.

Open Scope string_scope.
Open Scope list_scope.

(** ** JavaScript strings *)

Module JS.

Definition isUpper (c : ascii) : bool :=
  let n := nat_of_ascii c in (65 <=? n)%nat && (n <=? 90)%nat.

Definition isLower (c : ascii) : bool :=
  let n := nat_of_ascii c in (97 <=? n)%nat && (n <=? 122)%nat.

Definition isDigit (c : ascii) : bool :=
  let n := nat_of_ascii c in (48 <=? n)%nat && (n <=? 57)%nat.

Definition upperChar (c : ascii) : ascii :=
  if isLower c then ascii_of_nat (nat_of_ascii c - 32) else c.

Definition lowerChar (c : ascii) : ascii :=
  if isUpper c then ascii_of_nat (nat_of_ascii c + 32) else c.

Fixpoint mapChars (f : ascii → ascii) (s : string) : string :=
  match s with
  | EmptyString => EmptyString
  | String c s' => String (f c) (mapChars f s')
  end.

(** [s.toUpperCase()] and [s.toLowerCase()] *)
Definition toUpperCase : string → string := mapChars upperChar.
Definition toLowerCase : string → string := mapChars lowerChar.

(** [s.substring(start, end)] for [0 <= start <= end] *)
Definition substring (start end_ : nat) (s : string) : string :=
  String.substring start (end_ - start) s.

Fixpoint dropChars (n : nat) (s : string) : string :=
  match n, s with
  | O, _ => s
  | S _, EmptyString => EmptyString
  | S n', String _ s' => dropChars n' s'
  end.

(** [s.slice(start)]: a negative [start] counts from the end of the
    string, and is clamped to the beginning. *)
Definition slice (start : Z) (s : string) : string :=
  let len := Z.of_nat (String.length s) in
  let from := if (start <? 0)%Z then Z.max (len + start) 0 else Z.min start len in
  dropChars (Z.to_nat from) s.

(** [s.replace(/\D/g, '')] *)
Fixpoint removeNonDigits (s : string) : string :=
  match s with
  | EmptyString => EmptyString
  | String c s' =>
      if isDigit c then String c (removeNonDigits s') else removeNonDigits s'
  end.

(** Truthiness of a string that may be [undefined]: the empty string and
    [undefined] are falsy. *)
Definition truthy (v : option string) : bool :=
  match v with
  | Some (String _ _) => true
  | _ => false
  end.

(** [v || d] on such a value *)
Definition orElse (v : option string) (d : string) : string :=
  match v with
  | Some (String c s) => String c s
  | _ => d
  end.

(** [a === b] for a possibly-undefined [a] and a string [b] *)
Definition strictEq (a : option string) (b : string) : bool :=
  match a with
  | Some s => String.eqb s b
  | None => false
  end.

(** A value interpolated in a template literal *)
Definition interpolate (v : option string) : string :=
  match v with
  | Some s => s
  | None => "null"
  end.

End JS.

(** ** Data model *)

Record TeamMember := {
  memName : option string;
  memRoll : option string;
  memPhone : option string
}.

Record Registration := {
  teamName : string;
  capName : string;
  capPhone : string;
  capRoll : string;
  participantType : string;
  createdAt : Z;
  teamMembers : option (list TeamMember)
}.

(** Modelled from the spec: the schema of [CoordinatorLog]
    (models/coordsLogModel): one record per event, keyed by the event name,
    [vCardsDownloaded] starting at [false], the other two fields nullable. *)
Record CoordinatorLog := {
  logEventName : string;
  vCardsDownloaded : bool;
  firstDownloaderName : option string;
  downloadTime : option Z
}.

Definition newLog (eventName : string) : CoordinatorLog :=
  {| logEventName := eventName;
     vCardsDownloaded := false;
     firstDownloaderName := None;
     downloadTime := None |}.

(** [req.body] *)
Record Request := {
  eventName : string;
  coordsValue : string;
  coordinatorName : string;
  passkey : string
}.

(** The value of a field of a JSON body; the bodies of this handler are
    flat objects. *)
Inductive json :=
| JNull
| JBool (b : bool)
| JString (s : string).

(** [res.status(status).json(body)] *)
Record Response := {
  status : nat;
  body : list (string * json)
}.

Definition field (k : string) (r : Response) : option json :=
  snd <$> List.find (λ kv, String.eqb (fst kv) k) (body r).

(** ** The sheet handed to ExcelJS *)

Record Column := {
  header : string;
  key : string;
  width : nat
}.

Record Worksheet := {
  sheetName : string;
  columns : list Column;
  rows : list (gmap string string);
  headerBold : bool
}.

(** A cell of a row added from an object holds the value stored under the
    key of its column, and is blank when the object has no such key. *)
Definition renderRow (cols : list Column) (rowData : gmap string string)
  : list (option string) :=
  (λ c, rowData !! key c) <$> cols.

Definition renderSheet (ws : Worksheet) : list (list (option string)) :=
  renderRow (columns ws) <$> rows ws.

(** ** The host *)

Class Runtime := {
  env : gmap string string;
  (** [(await workbook.xlsx.writeBuffer()).toString('base64')] *)
  xlsxBase64 : Worksheet → string;
  (** [new Date(t).toLocaleString()] *)
  toLocaleString : option Z → string
}.

(** ** generateVCard *)

Definition generateVCard (name : option string) (phone filename : string) : string :=
  "BEGIN:VCARD
VERSION:3.0
FN:" +:+ filename +:+ "
N:;" +:+ filename +:+ ";;;
TEL;TYPE=CELL:" +:+ phone +:+ "
END:VCARD
".

(** ** STEP 4: the export sheet *)

Definition maxTeamMembers (registrations : list Registration) : nat :=
  foldl (λ maxTeamMembers reg,
           match teamMembers reg with
           | Some members =>
               if (maxTeamMembers <? length members)%nat
               then length members else maxTeamMembers
           | None => maxTeamMembers
           end) 0%nat registrations.

Definition fixedColumns : list Column := [
  {| header := "Team Name"; key := "teamName"; width := 25 |};
  {| header := "Captain Name"; key := "capName"; width := 20 |};
  {| header := "Captain Phone"; key := "capPhone"; width := 15 |};
  {| header := "Captain Roll"; key := "capRoll"; width := 15 |};
  {| header := "Type"; key := "type"; width := 10 |};
  {| header := "Registered At"; key := "regAt"; width := 20 |}
].

(** The key [m${i}Name], [m${i}Roll] or [m${i}Phone] *)
Definition memberKey (i : nat) (what : string) : string :=
  "m" +:+ pretty i +:+ what.

Definition memberColumns (i : nat) : list Column := [
  {| header := "Mem " +:+ pretty i +:+ " Name"; key := memberKey i "Name"; width := 20 |};
  {| header := "Mem " +:+ pretty i +:+ " Roll"; key := memberKey i "Roll"; width := 15 |};
  {| header := "Mem " +:+ pretty i +:+ " Phone"; key := memberKey i "Phone"; width := 15 |}
].

(** [for (let i = 1; i <= maxTeamMembers; i++) columns.push(...)] *)
Definition sheetColumns (maxTeamMembers : nat) : list Column :=
  (fixedColumns ++ flat_map memberColumns (seq 1 maxTeamMembers))%list.

(** The body of [reg.teamMembers.forEach((member, index) => ...)] *)
Definition setMemberCells (rowData : gmap string string)
    (member : TeamMember) (index : nat) : gmap string string :=
  let i := (index + 1)%nat in
  <[memberKey i "Phone" := JS.orElse (memPhone member) "-"]>
    (<[memberKey i "Roll" := JS.orElse (memRoll member) "-"]>
       (<[memberKey i "Name" := JS.orElse (memName member) "-"]> rowData)).

Fixpoint forEachFrom {A T : Type} (f : T → A → nat → T)
    (index : nat) (l : list A) (s : T) : T :=
  match l with
  | [] => s
  | x :: l' => forEachFrom f (S index) l' (f s x index)
  end.

Section Handler.
Context `{!Runtime}.

Definition rowDataOf (reg : Registration) : gmap string string :=
  let rowData : gmap string string :=
    <["regAt" := toLocaleString (Some (createdAt reg))]>
      (<["type" := participantType reg]>
         (<["capRoll" := if String.eqb (participantType reg) "INTERNAL"
                         then capRoll reg else "EXTERNAL"]>
            (<["capPhone" := capPhone reg]>
               (<["capName" := capName reg]>
                  (<["teamName" := teamName reg]> ∅))))) in
  match teamMembers reg with
  | Some members => forEachFrom setMemberCells 0 members rowData
  | None => rowData
  end.

Definition buildWorksheet (registrations : list Registration) : Worksheet :=
  {| sheetName := "Participants";
     columns := sheetColumns (maxTeamMembers registrations);
     rows := rowDataOf <$> registrations;
     headerBold := true |}.

(** ** STEP 5: the contact cards *)

Definition uniqueId (eventName : string) (reg : Registration) : string :=
  let prefix := JS.toLowerCase (JS.substring 0 2 eventName) in
  if String.eqb (participantType reg) "INTERNAL" then
    prefix +:+ capRoll reg
  else
    let phoneSuffix := JS.slice (-8) (JS.removeNonDigits (capPhone reg)) in
    prefix +:+ "EXT" +:+ phoneSuffix.

(** The cards appended to [vCardContent] for one registration, in the
    order in which they are appended. *)
Definition cardsOf (eventName : string) (reg : Registration) : list string :=
  let uniqueId := uniqueId eventName reg in
  generateVCard (Some (capName reg)) (capPhone reg) (uniqueId +:+ "-1") ::
  match teamMembers reg with
  | Some (member0 :: _) =>
      match memPhone member0 with
      | Some (String c p) =>
          [generateVCard (memName member0) (String c p) (uniqueId +:+ "-2")]
      | _ => []
      end
  | _ => []
  end.

Definition vCardContent (eventName : string)
    (registrations : list Registration) : string :=
  foldl (λ content reg, foldl String.append content (cardsOf eventName reg))
        "" registrations.
End Handler.

(** ** The two collections *)

Record DB := {
  (** The answer of
      [registerModel.find({ eventName }).sort({ createdAt: -1 }).lean()] *)
  registrations : string → list Registration;
  (** The [CoordinatorLog] collection, keyed by [eventName] *)
  logs : gmap string CoordinatorLog
}.

Definition withLogs (db : DB) (m : gmap string CoordinatorLog) : DB :=
  {| registrations := registrations db; logs := m |}.

(** [CoordinatorLog.findOne({ eventName })] *)
Definition dbFindOne (eventName : string) (db : DB) : option CoordinatorLog * DB :=
  (logs db !! eventName, db).

(** [CoordinatorLog.create({ eventName })]: [None] when the call is
    rejected because the event already has a record. *)
Definition dbCreate (eventName : string) (db : DB) : option CoordinatorLog * DB :=
  match logs db !! eventName with
  | Some _ => (None, db)
  | None => (Some (newLog eventName),
             withLogs db (<[eventName := newLog eventName]> (logs db)))
  end.

Definition claim (l : CoordinatorLog) (coordinatorName : string) (now : Z)
  : CoordinatorLog :=
  {| logEventName := logEventName l;
     vCardsDownloaded := true;
     firstDownloaderName := Some coordinatorName;
     downloadTime := Some now |}.

(** [CoordinatorLog.findOneAndUpdate(
       { eventName, vCardsDownloaded: false },
       { $set: { vCardsDownloaded: true, firstDownloaderName, downloadTime } },
       { new: true })], one indivisible operation of the store. *)
Definition dbFindOneAndUpdate (eventName coordinatorName : string) (now : Z)
    (db : DB) : option CoordinatorLog * DB :=
  match logs db !! eventName with
  | Some l =>
      if vCardsDownloaded l then (None, db)
      else (Some (claim l coordinatorName now),
            withLogs db (<[eventName := claim l coordinatorName now]> (logs db)))
  | None => (None, db)
  end.

(** ** Programs over the collections

    A program is the tree of the awaited calls of a request; the continuation
    of a call takes its answer. *)

Inductive prog (A : Type) : Type :=
| Ret (a : A)
| Find (eventName : string) (k : list Registration → prog A)
| FindOne (eventName : string) (k : option CoordinatorLog → prog A)
| Create (eventName : string) (k : option CoordinatorLog → prog A)
| FindOneAndUpdate (eventName coordinatorName : string) (now : Z)
    (k : option CoordinatorLog → prog A).

Arguments Ret {A} a.
Arguments Find {A} eventName k.
Arguments FindOne {A} eventName k.
Arguments Create {A} eventName k.
Arguments FindOneAndUpdate {A} eventName coordinatorName now k.

Fixpoint bind {A B : Type} (p : prog A) (f : A → prog B) : prog B :=
  match p with
  | Ret a => f a
  | Find e k => Find e (λ r, bind (k r) f)
  | FindOne e k => FindOne e (λ r, bind (k r) f)
  | Create e k => Create e (λ r, bind (k r) f)
  | FindOneAndUpdate e n t k => FindOneAndUpdate e n t (λ r, bind (k r) f)
  end.

#[export] Instance prog_ret : MRet prog := @Ret.
#[export] Instance prog_bind : MBind prog := λ A B f p, bind p f.

Definition find (eventName : string) : prog (list Registration) :=
  Find eventName Ret.
Definition findOne (eventName : string) : prog (option CoordinatorLog) :=
  FindOne eventName Ret.
Definition create (eventName : string) : prog (option CoordinatorLog) :=
  Create eventName Ret.
Definition findOneAndUpdate (eventName coordinatorName : string) (now : Z)
  : prog (option CoordinatorLog) :=
  FindOneAndUpdate eventName coordinatorName now Ret.

(** One awaited call, executed on the store. *)
Definition stepProg {A : Type} (p : prog A) (db : DB) : option (prog A * DB) :=
  match p with
  | Ret _ => None
  | Find e k => Some (k (registrations db e), db)
  | FindOne e k => let '(r, db') := dbFindOne e db in Some (k r, db')
  | Create e k => let '(r, db') := dbCreate e db in Some (k r, db')
  | FindOneAndUpdate e n t k =>
      let '(r, db') := dbFindOneAndUpdate e n t db in Some (k r, db')
  end.

(** A request that runs alone, from its first call to its response. *)
Fixpoint run {A : Type} (p : prog A) (db : DB) : A * DB :=
  match p with
  | Ret a => (a, db)
  | Find e k => run (k (registrations db e)) db
  | FindOne e k => let '(r, db') := dbFindOne e db in run (k r) db'
  | Create e k => let '(r, db') := dbCreate e db in run (k r) db'
  | FindOneAndUpdate e n t k =>
      let '(r, db') := dbFindOneAndUpdate e n t db in run (k r) db'
  end.

(** ** The responses *)

Definition unauthorized : Response :=
  {| status := 401; body := [("error", JString "Invalid Passkey")] |}.

Definition noneRegistered : Response :=
  {| status := 200;
     body := [("success", JBool false);
              ("message", JString "No one registered yet!")] |}.

Definition serverError : Response :=
  {| status := 500;
     body := [("error", JString "Server Error processing download")] |}.

Definition success (message base64Excel : string) (vcf : json) : Response :=
  {| status := 200;
     body := [("success", JBool true);
              ("message", JString message);
              ("excelBase64", JString base64Excel);
              ("vcf", vcf)] |}.

Definition firstMessage : string :=
  "You are the first coordinator, You can download both Contacts and the Excel Sheet".

Definition adminFreshMessage : string :=
  "ADMIN MODE: Retrieved all data. (Status: Not yet downloaded by any coordinator)".

Section HandleDownload.
Context `{!Runtime}.

Definition adminClaimedMessage (logDetails : CoordinatorLog) : string :=
  let timeStr := toLocaleString (downloadTime logDetails) in
  "ADMIN MODE: Retrieved all data. (Note: Originally downloaded by "
    +:+ JS.interpolate (firstDownloaderName logDetails)
    +:+ " at " +:+ timeStr +:+ ")".

Definition lateMessage (logDetails : CoordinatorLog) : string :=
  let timeStr := toLocaleString (downloadTime logDetails) in
  "âš  Alert : Contacts were ALREADY downloaded by *"
    +:+ JS.interpolate (firstDownloaderName logDetails)
    +:+ "*, At " +:+ timeStr +:+ ".".

(** STEP 4 and STEP 5. Reading a field of [logDetails] when it is [null]
    throws, and the [catch] of the handler answers 500. *)
Definition respond (eventName : string) (isAdmin : bool)
    (registrations : list Registration)
    (isFirstDownload : bool) (logDetails : option CoordinatorLog) : Response :=
  let base64Excel := xlsxBase64 (buildWorksheet registrations) in
  if isAdmin || isFirstDownload then
    let message :=
      if isAdmin then
        match logDetails with
        | Some l =>
            Some (if vCardsDownloaded l then adminClaimedMessage l
                  else adminFreshMessage)
        | None => None
        end
      else Some firstMessage in
    match message with
    | Some message =>
        success message base64Excel
                (JString (vCardContent eventName registrations))
    | None => serverError
    end
  else
    match logDetails with
    | Some l => success (lateMessage l) base64Excel JNull
    | None => serverError
    end.

(** STEP 1 *)
Definition isAdmin (req : Request) : bool :=
  let masterKey := env !! "PASSKEY_MASTER" in
  JS.truthy masterKey && JS.strictEq masterKey (passkey req).

Definition envKey (req : Request) : string :=
  "PASSKEY_" +:+ JS.toUpperCase (coordsValue req).

Definition invalidPasskey (req : Request) : bool :=
  negb (JS.truthy (env !! envKey req))
  || negb (JS.strictEq (env !! envKey req) (passkey req)).

(** STEP 2. The [try] block: a rejected [create] is caught, and the record
    that another request has created is read instead. *)
Definition createLog (eventName : string) : prog (option CoordinatorLog) :=
  created ← create eventName;
  match created with
  | Some l => mret (Some l)
  | None => findOne eventName
  end.

Definition ensureLog (eventName : string) : prog (option CoordinatorLog) :=
  existingLog ← findOne eventName;
  match existingLog with
  | Some l => mret (Some l)
  | None => createLog eventName
  end.

(** STEP 3. [logDetails] starts as [existingLog] and is assigned again on
    every branch, so the result does not depend on [existingLog]. *)
Definition resolveLock (isAdmin : bool) (eventName coordinatorName : string)
    (now : Z) : prog (bool * option CoordinatorLog) :=
  if isAdmin then
    logDetails ← findOne eventName;
    mret (false, logDetails)
  else
    lockResult ← findOneAndUpdate eventName coordinatorName now;
    match lockResult with
    | Some l => mret (true, Some l)
    | None =>
        logDetails ← findOne eventName;
        mret (false, logDetails)
    end.

(** [now] is the value of [new Date()] in this request. *)
Definition handleDownload (req : Request) (now : Z) : prog Response :=
  let isAdmin := isAdmin req in
  if negb isAdmin && invalidPasskey req then mret unauthorized
  else
    registrations ← find (eventName req);
    match registrations with
    | [] => mret noneRegistered
    | _ :: _ =>
        existingLog ← ensureLog (eventName req);
        '(isFirstDownload, logDetails) ←
          resolveLock isAdmin (eventName req) (coordinatorName req) now;
        mret (respond (eventName req) isAdmin registrations
                      isFirstDownload logDetails)
    end.

(** ** Requests in flight *)

Record thread := {
  t_req : Request;
  t_now : Z;
  t_code : prog Response
}.

Definition spawn (req : Request) (now : Z) : thread :=
  {| t_req := req; t_now := now; t_code := handleDownload req now |}.

Definition resume (t : thread) (code : prog Response) : thread :=
  {| t_req := t_req t; t_now := t_now t; t_code := code |}.

Definition config : Type := list thread * DB.

(** A request arrives, a request in flight gets the answer of its pending
    call, or the registrations change. *)
Inductive step : config → config → Prop :=
| step_arrive pool db req now :
    step (pool, db) ((pool ++ [spawn req now])%list, db)
| step_call pool db i t code' db' :
    pool !! i = Some t →
    stepProg (t_code t) db = Some (code', db') →
    step (pool, db) (<[i := resume t code']> pool, db')
| step_register pool db regs' :
    step (pool, db) (pool, {| registrations := regs'; logs := logs db |}).

Definition reachable (db0 : DB) (c : config) : Prop := rtc step ([], db0) c.

(** All of the requests of a list, one after the other. *)
Fixpoint runAll (reqs : list (Request * Z)) (db : DB) : list Response * DB :=
  match reqs with
  | [] => ([], db)
  | (req, now) :: reqs' =>
      let '(r, db') := run (handleDownload req now) db in
      let '(rs, db'') := runAll reqs' db' in
      (r :: rs, db'')
  end.
End HandleDownload.


(** ** Notions used to state the properties *)

(** The number of team members of a registration *)
Definition teamSize (reg : Registration) : nat :=
  match teamMembers reg with
  | Some members => length members
  | None => 0
  end.

Definition ownMembers (reg : Registration) : list TeamMember :=
  default [] (teamMembers reg).

(** Some team member, the first or a later one, has a non-empty phone. *)
Definition hasMemberWithPhone (reg : Registration) : Prop :=
  ∃ member, member ∈ ownMembers reg ∧ JS.truthy (memPhone member) = true.

(** The identifier in the words of the specification: the first two
    characters of the event name, lowercased; then the roll of the captain,
    or [EXT] and the last eight digits of the phone of the captain. *)
Definition firstChars (n : nat) (s : string) : string :=
  string_of_list_ascii (take n (list_ascii_of_string s)).

Definition lastChars (n : nat) (s : string) : string :=
  string_of_list_ascii (reverse (take n (reverse (list_ascii_of_string s)))).

Definition digitsOf (s : string) : string :=
  string_of_list_ascii (List.filter JS.isDigit (list_ascii_of_string s)).

Definition specUniqueId (eventName : string) (reg : Registration) : string :=
  JS.toLowerCase (firstChars 2 eventName)
  +:+ (if String.eqb (participantType reg) "INTERNAL" then capRoll reg
       else "EXT" +:+ lastChars 8 (digitsOf (capPhone reg))).

(** The reading of the second-card rule by existence: the second card is there exactly when
    some member of the team has a phone. *)
Definition secondCardIffSomeMemberHasPhone (eventName : string)
    (reg : Registration) : Prop :=
  (∃ second, cardsOf eventName reg
             = [generateVCard (Some (capName reg)) (capPhone reg)
                              (uniqueId eventName reg +:+ "-1"); second])
  ↔ hasMemberWithPhone reg.

(** The parts of a team member that the sheet shows *)
Inductive part := PName | PRoll | PPhone.

Definition partKey (p : part) : string :=
  match p with PName => "Name" | PRoll => "Roll" | PPhone => "Phone" end.

Definition partOf (p : part) (member : TeamMember) : option string :=
  match p with
  | PName => memName member
  | PRoll => memRoll member
  | PPhone => memPhone member
  end.

Definition partOffset (p : part) : nat :=
  match p with PName => 0 | PRoll => 1 | PPhone => 2 end.

Fixpoint allDigits (s : string) : bool :=
  match s with
  | EmptyString => true
  | String c s' => JS.isDigit c && allDigits s'
  end.

Definition startsWithLetter (s : string) : bool :=
  match s with
  | EmptyString => false
  | String c _ => negb (JS.isDigit c)
  end.

(** A registration with every name blanked *)
Definition withoutNames (reg : Registration) : Registration :=
  {| teamName := teamName reg;
     capName := "";
     capPhone := capPhone reg;
     capRoll := capRoll reg;
     participantType := participantType reg;
     createdAt := createdAt reg;
     teamMembers :=
       map (λ m, {| memName := None; memRoll := memRoll m; memPhone := memPhone m |})
         <$> teamMembers reg |}.

(** The lock of an event is claimed. *)
Definition claimed (db : DB) (eventName : string) : bool :=
  match logs db !! eventName with
  | Some l => vCardsDownloaded l
  | None => false
  end.

(** The store once STEP 2 has made sure that the event has a record *)
Definition ensured (db : DB) (eventName : string) : DB :=
  match logs db !! eventName with
  | Some _ => db
  | None => withLogs db (<[eventName := newLog eventName]> (logs db))
  end.

(** The lock records after a request are those before it, except that an
    event without a record may have got a fresh, unclaimed one. *)
Definition sameLocks (db db' : DB) : Prop :=
  ∀ e, match logs db !! e with
       | Some l => logs db' !! e = Some l
       | None => logs db' !! e = None ∨ logs db' !! e = Some (newLog e)
       end.

Section Notions.
Context `{!Runtime}.

(** The caller passes STEP 1. *)
Definition authorized (req : Request) : bool :=
  isAdmin req || negb (invalidPasskey req).

(** The rest of a request at each of its awaited calls. *)
Definition finish (req : Request) (regs : list Registration)
    (res : bool * option CoordinatorLog) : prog Response :=
  let '(isFirstDownload, logDetails) := res in
  Ret (respond (eventName req) (isAdmin req) regs isFirstDownload logDetails).

Definition lockPhase (req : Request) (now : Z) (regs : list Registration)
  : prog Response :=
  bind (resolveLock (isAdmin req) (eventName req) (coordinatorName req) now)
       (finish req regs).

Definition ensurePhase (req : Request) (now : Z) (regs : list Registration)
  : prog Response :=
  bind (ensureLog (eventName req)) (λ _, lockPhase req now regs).

Definition refetchPhase (req : Request) (now : Z) (regs : list Registration)
  : prog Response :=
  FindOne (eventName req) (λ _, lockPhase req now regs).

Definition createPhase (req : Request) (now : Z) (regs : list Registration)
  : prog Response :=
  bind (createLog (eventName req)) (λ _, lockPhase req now regs).

Definition lateReadPhase (req : Request) (regs : list Registration)
  : prog Response :=
  FindOne (eventName req) (λ logDetails, finish req regs (false, logDetails)).

(** What the store may become while a request waits: a record stays, and a
    claimed record stays as it is. *)
Definition evolves (db db' : DB) : Prop :=
  ∀ e l, logs db !! e = Some l →
         ∃ l', logs db' !! e = Some l' ∧ (vCardsDownloaded l = true → l' = l).

(** What the response of a finished request says about the store. *)
Inductive outcome (db : DB) (t : thread) : Response → Prop :=
| out_unauthorized :
    outcome db t unauthorized
| out_noneRegistered :
    outcome db t noneRegistered
| out_admin regs logDetails :
    isAdmin (t_req t) = true →
    outcome db t (respond (eventName (t_req t)) true regs false logDetails)
| out_first regs l :
    isAdmin (t_req t) = false →
    logs db !! eventName (t_req t) = Some l →
    vCardsDownloaded l = true →
    firstDownloaderName l = Some (coordinatorName (t_req t)) →
    downloadTime l = Some (t_now t) →
    outcome db t (respond (eventName (t_req t)) false regs true (Some l))
| out_late regs l :
    isAdmin (t_req t) = false →
    logs db !! eventName (t_req t) = Some l →
    vCardsDownloaded l = true →
    outcome db t (respond (eventName (t_req t)) false regs false (Some l)).

(** Where a request in flight stands, and what it may rely on there. *)
Inductive at_point (db : DB) (t : thread) : Prop :=
| at_start :
    t_code t = handleDownload (t_req t) (t_now t) →
    at_point db t
| at_ensure regs :
    t_code t = ensurePhase (t_req t) (t_now t) regs →
    at_point db t
| at_create regs :
    t_code t = createPhase (t_req t) (t_now t) regs →
    at_point db t
| at_refetch regs :
    t_code t = refetchPhase (t_req t) (t_now t) regs →
    is_Some (logs db !! eventName (t_req t)) →
    at_point db t
| at_lock regs :
    t_code t = lockPhase (t_req t) (t_now t) regs →
    is_Some (logs db !! eventName (t_req t)) →
    at_point db t
| at_lateRead regs :
    isAdmin (t_req t) = false →
    t_code t = lateReadPhase (t_req t) regs →
    claimed db (eventName (t_req t)) = true →
    at_point db t
| at_done r :
    t_code t = Ret r →
    outcome db t r →
    at_point db t.

(** The request has finished with the message of the first coordinator. *)
Definition isWinner (t : thread) : Prop :=
  isAdmin (t_req t) = false
  ∧ ∃ r, t_code t = Ret r ∧ field "message" r = Some (JString firstMessage).

Definition invariant (c : config) : Prop :=
  (∀ i t, c.1 !! i = Some t → at_point c.2 t)
  ∧ (∀ i j ti tj,
       c.1 !! i = Some ti → c.1 !! j = Some tj →
       isWinner ti → isWinner tj →
       eventName (t_req ti) = eventName (t_req tj) → i = j).

(** The requests of a list served one after the other, as requests in
    flight that have all finished. *)
Fixpoint runPool (reqs : list (Request * Z)) (db : DB) : list thread * DB :=
  match reqs with
  | [] => ([], db)
  | (req, now) :: reqs' =>
      let '(r, db') := run (handleDownload req now) db in
      let '(pool, db'') := runPool reqs' db' in
      ({| t_req := req; t_now := now; t_code := Ret r |} :: pool, db'')
  end.

End Notions.


(** The request with the same passkey and [coordsValue], sent for another
    event under another coordinator name. *)
Definition sentFor (req : Request) (eventName coordinatorName : string) : Request :=
  {| eventName := eventName;
     coordsValue := coordsValue req;
     coordinatorName := coordinatorName;
     passkey := passkey req |}.

Section Shapes.
Context `{!Runtime}.

(** The three shapes of a response that is not the 500 of the [catch]. *)
Definition served (r : Response) : Prop :=
  r = unauthorized
  ∨ r = noneRegistered
  ∨ ∃ message regs vcf,
      r = success message (xlsxBase64 (buildWorksheet regs)) vcf.

(** Every finished request of the pool has one of these shapes. *)
Definition allServed (pool : list thread) : Prop :=
  ∀ i t r, pool !! i = Some t → t_code t = Ret r → served r.


End Shapes.

(** ** Sample data *)

Module Sample.

Definition runtime : Runtime :=
  {| env := <["PASSKEY_MASTER" := "root"]> (<["PASSKEY_HACKATHON" := "hack"]> ∅);
     xlsxBase64 := λ ws, "UEsDBA==";
     toLocaleString := λ t, match t with Some z => pretty z | None => "Invalid Date" end |}.

Definition bob : TeamMember :=
  {| memName := Some "Bob"; memRoll := Some "102"; memPhone := Some "9876543210" |}.

Definition noPhone : TeamMember :=
  {| memName := Some "Dan"; memRoll := Some "103"; memPhone := Some "" |}.

Definition internal : Registration :=
  {| teamName := "Bits"; capName := "Alice"; capPhone := "9123456780";
     capRoll := "101"; participantType := "INTERNAL"; createdAt := 1700000000000;
     teamMembers := Some [bob] |}.

Definition external : Registration :=
  {| teamName := "Guests"; capName := "Eve"; capPhone := "+91 99999-12345";
     capRoll := "77"; participantType := "EXTERNAL"; createdAt := 1700000001000;
     teamMembers := None |}.

(** The first member has no phone, the second has one. *)
Definition secondHasPhone : Registration :=
  {| teamName := "Pair"; capName := "Alice"; capPhone := "9123456780";
     capRoll := "101"; participantType := "INTERNAL"; createdAt := 1700000002000;
     teamMembers := Some [noPhone; bob] |}.

Definition db : DB :=
  {| registrations := λ e, if String.eqb e "Hackathon" then [internal; external] else [];
     logs := ∅ |}.

Definition coordinator : Request :=
  {| eventName := "Hackathon"; coordsValue := "hackathon";
     coordinatorName := "Carol"; passkey := "hack" |}.

Definition secondCoordinator : Request :=
  {| eventName := "Hackathon"; coordsValue := "hackathon";
     coordinatorName := "Dave"; passkey := "hack" |}.

Definition admin : Request :=
  {| eventName := "Hackathon"; coordsValue := "hackathon";
     coordinatorName := "Root"; passkey := "root" |}.

Definition intruder : Request :=
  {| eventName := "Hackathon"; coordsValue := "hackathon";
     coordinatorName := "Mallory"; passkey := "guess" |}.

Definition emptyEvent : Request :=
  {| eventName := "Chess"; coordsValue := "hackathon";
     coordinatorName := "Carol"; passkey := "hack" |}.

End Sample.

(** * Properties *)

(** ** Contact cards *)

(** C10. The card of a contact has the file name in its FN and N fields and
    the phone in its TEL field, whatever the name passed to
    [generateVCard]; the whole text of the cards of an event is the same
    when every captain and member name is blanked. *)
Theorem generateVCard_ignores_name :
  (∀ (name name' : option string) (phone filename : string),
      generateVCard name phone filename = generateVCard name' phone filename
      ∧ generateVCard name phone filename =
          "BEGIN:VCARD" +:+ String "010" "VERSION:3.0" +:+ String "010" "FN:" +:+ filename
          +:+ String "010" "N:;" +:+ filename +:+ ";;;"
          +:+ String "010" "TEL;TYPE=CELL:" +:+ phone
          +:+ String "010" "END:VCARD" +:+ String "010" "")
  ∧ (∀ (eventName : string) (registrations : list Registration),
        vCardContent eventName registrations
        = vCardContent eventName (withoutNames <$> registrations)).
Proof.
  split.
  - intros name name' phone filename. split; reflexivity.
  - intros e regs. unfold vCardContent.
    generalize "" as acc. induction regs as [|reg regs IH]; intros acc; [done|].
    rewrite fmap_cons. simpl. rewrite <- IH. f_equal. f_equal.
    unfold cardsOf, uniqueId. by destruct reg as [tn cn cp cr pt ca [[|m ms]|]].
Qed.

Lemma length_list_ascii (s : string) :
  length (list_ascii_of_string s) = String.length s.
Proof. induction s as [|c s IH]; simpl; congruence. Qed.

Lemma substring_take (n : nat) (s : string) :
  String.substring 0 n s = string_of_list_ascii (take n (list_ascii_of_string s)).
Proof.
  revert s. induction n as [|n IH]; intros [|c s]; simpl; try done.
  by rewrite IH.
Qed.

Lemma dropChars_drop (n : nat) (s : string) :
  JS.dropChars n s = string_of_list_ascii (drop n (list_ascii_of_string s)).
Proof.
  revert s. induction n as [|n IH]; intros [|c s]; simpl; try done.
  by rewrite string_of_list_ascii_of_string.
Qed.

Lemma removeNonDigits_filter (s : string) :
  JS.removeNonDigits s = digitsOf s.
Proof.
  unfold digitsOf. induction s as [|c s IH]; simpl; [done|].
  destruct (JS.isDigit c); simpl; by rewrite IH.
Qed.

Lemma substring_firstChars (n : nat) (s : string) :
  JS.substring 0 n s = firstChars n s.
Proof. unfold JS.substring. rewrite Nat.sub_0_r. apply substring_take. Qed.

(** [s.slice(-n)] keeps the last [n] characters of [s], and all of [s] when
    it is shorter. *)
Lemma slice_lastChars (n : nat) (s : string) :
  0 < n → JS.slice (- Z.of_nat n) s = lastChars n s.
Proof.
  intros Hn. unfold JS.slice, lastChars.
  destruct (Z.ltb_spec (- Z.of_nat n) 0) as [_|?]; [|lia].
  rewrite dropChars_drop, take_reverse, reverse_involutive.
  rewrite length_list_ascii. do 2 f_equal. lia.
Qed.

(** C9. The identifier of a registration is the first two characters of the
    event name, lowercased, followed by the roll of the captain when the
    participant type is INTERNAL, and otherwise by EXT and the last eight
    digits of the phone of the captain; for the event Hackathon and an
    INTERNAL registration of roll 101 the cards are named ha101-1 and
    ha101-2. *)
Theorem uniqueId_spec (eventName : string) (reg : Registration) :
  uniqueId eventName reg = specUniqueId eventName reg
  ∧ (eventName = "Hackathon" → participantType reg = "INTERNAL" →
     capRoll reg = "101" →
     uniqueId eventName reg = "ha101"
     ∧ ∃ rest,
         cardsOf eventName reg
         = generateVCard (Some (capName reg)) (capPhone reg) "ha101-1" :: rest
         ∧ (rest = []
            ∨ ∃ member phone,
                head (ownMembers reg) = Some member
                ∧ memPhone member = Some phone
                ∧ rest = [generateVCard (memName member) phone "ha101-2"])).
Proof.
  split.
  - unfold uniqueId, specUniqueId.
    rewrite substring_firstChars, removeNonDigits_filter.
    change (-8)%Z with (- Z.of_nat 8)%Z.
    rewrite slice_lastChars by lia.
    by destruct (String.eqb (participantType reg) "INTERNAL").
  - intros -> Htype Hroll.
    assert (uniqueId "Hackathon" reg = "ha101") as Hid.
    { unfold uniqueId. by rewrite Htype, Hroll. }
    split; [done|]. unfold cardsOf. rewrite Hid. eexists. split; [done|].
    unfold ownMembers. destruct (teamMembers reg) as [[|m ms]|]; simpl; auto.
    destruct (memPhone m) as [[|c p]|] eqn:Hp; auto.
    right. by exists m, (String c p).
Qed.

Lemma uniqueId_spec_witness :
  uniqueId "Hackathon" Sample.internal = specUniqueId "Hackathon" Sample.internal
  ∧ uniqueId "Hackathon" Sample.internal = "ha101"
  ∧ cardsOf "Hackathon" Sample.internal
    = [generateVCard (Some "Alice") "9123456780" "ha101-1";
       generateVCard (Some "Bob") "9876543210" "ha101-2"]
  ∧ uniqueId "Hackathon" Sample.external = "haEXT99912345".
Proof.
  destruct (uniqueId_spec "Hackathon" Sample.internal) as [Hspec Hex].
  destruct (Hex eq_refl eq_refl eq_refl) as [Hid _].
  split; [exact Hspec|]. split; [exact Hid|]. split; reflexivity.
Defined.

(** C8, refuted as the specification words it: the first member has no
    phone and the second has one, and only the card of the captain is
    emitted. *)
Lemma second_card_counterexample :
  hasMemberWithPhone Sample.secondHasPhone
  ∧ cardsOf "Hackathon" Sample.secondHasPhone
    = [generateVCard (Some "Alice") "9123456780" "ha101-1"]
  ∧ (secondCardIffSomeMemberHasPhone "Hackathon" Sample.secondHasPhone ↔ False).
Proof.
  assert (hasMemberWithPhone Sample.secondHasPhone) as Hhas.
  { exists Sample.bob. split; [|done]. unfold ownMembers. simpl. set_solver. }
  split; [done|]. split; [done|]. split; [|done].
  intros [_ Hback]. destruct (Hback Hhas) as [second Heq]. discriminate Heq.
Qed.

(** C8, as amended. The card [<id>-2] is emitted exactly when the first
    member of the team exists and has a non-empty phone; it is generated
    from the name and the phone of that member. Otherwise the card [<id>-1]
    of the captain is the only card of the registration. *)
Theorem second_card_iff_first_member_phone (eventName : string)
    (reg : Registration) :
  let first := generateVCard (Some (capName reg)) (capPhone reg)
                             (uniqueId eventName reg +:+ "-1") in
  let second member :=
    generateVCard (memName member) (default "" (memPhone member))
                  (uniqueId eventName reg +:+ "-2") in
  ((∃ card, cardsOf eventName reg = [first; card])
   ↔ ∃ member, head (ownMembers reg) = Some member
               ∧ JS.truthy (memPhone member) = true)
  ∧ cardsOf eventName reg
    = first :: match head (ownMembers reg) with
               | Some member =>
                   if JS.truthy (memPhone member) then [second member] else []
               | None => []
               end.
Proof.
  assert (∀ a b : string, ¬ ∃ card, [a] = [b; card]) as Hone.
  { intros a b [card Heq]. discriminate Heq. }
  unfold cardsOf, ownMembers.
  destruct (teamMembers reg) as [[|m ms]|]; simpl.
  - split; [|done]. split; [by intros ?%Hone|].
    intros (member & Heq & _). discriminate Heq.
  - destruct (memPhone m) as [[|c p]|] eqn:Hp; simpl; (split; [|done]).
    + split; [by intros ?%Hone|].
      intros (member & [= <-] & Heq). by rewrite Hp in Heq.
    + split; [intros _; exists m; by rewrite Hp|by eexists].
    + split; [by intros ?%Hone|].
      intros (member & [= <-] & Heq). by rewrite Hp in Heq.
  - split; [|done]. split; [by intros ?%Hone|].
    intros (member & Heq & _). discriminate Heq.
Qed.

Lemma second_card_iff_first_member_phone_witness :
  cardsOf "Hackathon" Sample.internal
  = [generateVCard (Some "Alice") "9123456780" "ha101-1";
     generateVCard (Some "Bob") "9876543210" "ha101-2"]
  ∧ cardsOf "Hackathon" Sample.secondHasPhone
    = [generateVCard (Some "Alice") "9123456780" "ha101-1"].
Proof.
  split.
  - exact (proj2 (second_card_iff_first_member_phone "Hackathon" Sample.internal)).
  - exact (proj2 (second_card_iff_first_member_phone "Hackathon"
                    Sample.secondHasPhone)).
Defined.

(** ** The export sheet *)

Lemma pretty_N_go_digits (x : N) (s : string) :
  allDigits s = true → allDigits (pretty_N_go x s) = true.
Proof.
  revert s. induction (N.lt_wf_0 x) as [x _ IH]; intros s Hs.
  assert (x = 0 ∨ 0 < x)%N as [->|Hpos] by lia.
  - by rewrite pretty_N_go_0.
  - rewrite pretty_N_go_step by done. apply IH.
    { by apply N.div_lt. }
    simpl. rewrite Hs, andb_true_r.
    unfold pretty_N_char. by repeat case_match.
Qed.

Lemma pretty_nat_digits (n : nat) : allDigits (pretty n) = true.
Proof.
  unfold pretty, pretty_nat, pretty, pretty_N.
  case_decide; [done|]. by apply pretty_N_go_digits.
Qed.

Lemma append_empty_l (s : string) : "" +:+ s = s.
Proof. reflexivity. Qed.

Lemma append_cons (c : ascii) (s w : string) :
  String c s +:+ w = String c (s +:+ w).
Proof. reflexivity. Qed.

Lemma digits_app_inv (s1 s2 w1 w2 : string) :
  allDigits s1 = true → allDigits s2 = true →
  startsWithLetter w1 = true → startsWithLetter w2 = true →
  s1 +:+ w1 = s2 +:+ w2 → s1 = s2 ∧ w1 = w2.
Proof.
  revert s2. induction s1 as [|c1 s1 IH]; intros [|c2 s2]; simpl;
    intros H1 H2 Hw1 Hw2 Heq;
    rewrite ?append_empty_l, ?append_cons in Heq.
  - done.
  - subst w1. simpl in Hw1. apply andb_true_iff in H2 as [Hc _].
    rewrite Hc in Hw1. done.
  - subst w2. simpl in Hw2. apply andb_true_iff in H1 as [Hc _].
    rewrite Hc in Hw2. done.
  - injection Heq as -> Heq.
    apply andb_true_iff in H1 as [_ H1]. apply andb_true_iff in H2 as [_ H2].
    destruct (IH s2 H1 H2 Hw1 Hw2 Heq) as [-> ->]. done.
Qed.

Lemma memberKey_inj (i j : nat) (p q : part) :
  memberKey i (partKey p) = memberKey j (partKey q) → i = j ∧ p = q.
Proof.
  unfold memberKey. intros Heq. apply (inj (String.append "m")) in Heq.
  apply digits_app_inv in Heq as [Hij Hpq];
    [|apply pretty_nat_digits..|by destruct p|by destruct q].
  split; [by apply (inj pretty)|]. by destruct p, q.
Qed.

Lemma memberKey_head (i : nat) (what : string) :
  memberKey i what = String "m" (pretty i +:+ what).
Proof. reflexivity. Qed.

Lemma setMemberCells_lookup (rowData : gmap string string)
    (member : TeamMember) (index j : nat) (p : part) :
  setMemberCells rowData member index !! memberKey j (partKey p)
  = if decide (j = index + 1) then Some (JS.orElse (partOf p member) "-")
    else rowData !! memberKey j (partKey p).
Proof.
  unfold setMemberCells. case_decide as Hj.
  - subst j. destruct p; simpl partKey; simpl partOf.
    + rewrite lookup_insert_ne by (intros [_ [=]]%(memberKey_inj _ _ PPhone PName)).
      rewrite lookup_insert_ne by (intros [_ [=]]%(memberKey_inj _ _ PRoll PName)).
      by rewrite lookup_insert_eq.
    + rewrite lookup_insert_ne by (intros [_ [=]]%(memberKey_inj _ _ PPhone PRoll)).
      by rewrite lookup_insert_eq.
    + by rewrite lookup_insert_eq.
  - rewrite lookup_insert_ne by (intros [? _]%(memberKey_inj _ _ PPhone p); lia).
    rewrite lookup_insert_ne by (intros [? _]%(memberKey_inj _ _ PRoll p); lia).
    by rewrite lookup_insert_ne by (intros [? _]%(memberKey_inj _ _ PName p); lia).
Qed.

Lemma setMemberCells_other (rowData : gmap string string)
    (member : TeamMember) (index : nat) (k : string) :
  (∀ i what, k ≠ memberKey i what) →
  setMemberCells rowData member index !! k = rowData !! k.
Proof.
  intros Hk. unfold setMemberCells. rewrite !lookup_insert_ne; [done|..];
    intros Heq; by eapply Hk.
Qed.

Lemma forEachFrom_other (members : list TeamMember) (start : nat)
    (rowData : gmap string string) (k : string) :
  (∀ i what, k ≠ memberKey i what) →
  forEachFrom setMemberCells start members rowData !! k = rowData !! k.
Proof.
  intros Hk. revert start rowData.
  induction members as [|m ms IH]; intros start rowData; simpl; [done|].
  rewrite IH. by apply setMemberCells_other.
Qed.

(** After the loop over the members, the cell of slot [j] holds the part
    of member [j - 1], or a dash when that part is empty; the cell of a slot
    that no member fills is as it was before the loop. *)
Lemma forEachFrom_lookup (members : list TeamMember) (start : nat)
    (rowData : gmap string string) (j : nat) (p : part) :
  forEachFrom setMemberCells start members rowData !! memberKey j (partKey p)
  = match (if decide (start < j) then members !! (j - start - 1) else None) with
    | Some member => Some (JS.orElse (partOf p member) "-")
    | None => rowData !! memberKey j (partKey p)
    end.
Proof.
  revert start rowData.
  induction members as [|m ms IH]; intros start rowData; simpl.
  - by case_decide.
  - rewrite IH, setMemberCells_lookup.
    destruct (decide (j = start + 1)) as [->|Hne].
    + rewrite decide_False by lia. rewrite decide_True by lia.
      by replace (start + 1 - start - 1) with 0 by lia.
    + destruct (decide (S start < j)) as [Hlt|Hge].
      * rewrite decide_True by lia.
        by replace (j - start - 1) with (S (j - S start - 1)) by lia.
      * rewrite decide_False by lia. done.
Qed.

Lemma maxTeamMembers_foldl (registrations : list Registration) (acc : nat) :
  foldl (λ maxTeamMembers reg,
           match teamMembers reg with
           | Some members =>
               if (maxTeamMembers <? length members)%nat
               then length members else maxTeamMembers
           | None => maxTeamMembers
           end) acc registrations
  = acc `max` max_list_with teamSize registrations.
Proof.
  revert acc. induction registrations as [|reg regs IH]; intros acc; simpl.
  - lia.
  - rewrite IH. unfold teamSize. destruct (teamMembers reg) as [ms|]; [|lia].
    destruct (Nat.ltb_spec acc (length ms)); lia.
Qed.

Lemma maxTeamMembers_max (registrations : list Registration) :
  maxTeamMembers registrations = max_list_with teamSize registrations.
Proof. unfold maxTeamMembers. by rewrite maxTeamMembers_foldl. Qed.

Lemma memberColumns_lookup (start n index : nat) (p : part) :
  index < n →
  key <$> flat_map memberColumns (seq start n) !! (3 * index + partOffset p)
  = Some (memberKey (start + index) (partKey p)).
Proof.
  revert start index. induction n as [|n IH]; intros start index Hlt; [lia|].
  change (flat_map memberColumns (seq start (S n)))
    with (memberColumns start ++ flat_map memberColumns (seq (S start) n))%list.
  destruct index as [|index].
  - rewrite Nat.add_0_r. by destruct p.
  - rewrite lookup_app_r by (simpl length; lia).
    replace (3 * S index + partOffset p - length (memberColumns start))
      with (3 * index + partOffset p) by (simpl length; lia).
    rewrite IH by lia. do 2 f_equal. lia.
Qed.

Lemma memberColumns_length (start n : nat) :
  length (flat_map memberColumns (seq start n)) = 3 * n.
Proof.
  revert start. induction n as [|n IH]; intros start; [done|].
  change (flat_map memberColumns (seq start (S n)))
    with (memberColumns start ++ flat_map memberColumns (seq (S start) n))%list.
  rewrite length_app, IH. simpl length. lia.
Qed.

Lemma sheetColumns_length (n : nat) : length (sheetColumns n) = 6 + 3 * n.
Proof.
  unfold sheetColumns. rewrite length_app, memberColumns_length. done.
Qed.

Lemma sheetColumns_member (n index : nat) (p : part) :
  index < n →
  key <$> sheetColumns n !! (6 + 3 * index + partOffset p)
  = Some (memberKey (index + 1) (partKey p)).
Proof.
  intros Hlt. unfold sheetColumns.
  rewrite lookup_app_r by (simpl length; lia).
  replace (6 + 3 * index + partOffset p - length fixedColumns)
    with (3 * index + partOffset p) by (simpl length; lia).
  rewrite memberColumns_lookup by done. do 2 f_equal. lia.
Qed.

Section ExportSheet.
Context `{!Runtime}.

Lemma rowDataOf_fixed (reg : Registration) (k : string) :
  (∀ i what, k ≠ memberKey i what) →
  rowDataOf reg !! k
  = (<["regAt" := toLocaleString (Some (createdAt reg))]>
       (<["type" := participantType reg]>
          (<["capRoll" := if String.eqb (participantType reg) "INTERNAL"
                          then capRoll reg else "EXTERNAL"]>
             (<["capPhone" := capPhone reg]>
                (<["capName" := capName reg]>
                   (<["teamName" := teamName reg]> ∅)))))
     : gmap string string) !! k.
Proof.
  intros Hk. unfold rowDataOf. destruct (teamMembers reg) as [ms|]; [|done].
  by apply forEachFrom_other.
Qed.

Lemma rowDataOf_capRoll (reg : Registration) :
  rowDataOf reg !! "capRoll"
  = Some (if String.eqb (participantType reg) "INTERNAL"
          then capRoll reg else "EXTERNAL").
Proof.
  rewrite rowDataOf_fixed by (intros i what; by rewrite memberKey_head).
  by simplify_map_eq.
Qed.

Lemma rowDataOf_member (reg : Registration) (index : nat) (p : part) :
  rowDataOf reg !! memberKey (index + 1) (partKey p)
  = match ownMembers reg !! index with
    | Some member => Some (JS.orElse (partOf p member) "-")
    | None => None
    end.
Proof.
  assert (∀ m : gmap string string,
    (<["regAt" := toLocaleString (Some (createdAt reg))]>
       (<["type" := participantType reg]>
          (<["capRoll" := if String.eqb (participantType reg) "INTERNAL"
                          then capRoll reg else "EXTERNAL"]>
             (<["capPhone" := capPhone reg]>
                (<["capName" := capName reg]>
                   (<["teamName" := teamName reg]> m))))))
    !! memberKey (index + 1) (partKey p) = m !! memberKey (index + 1) (partKey p))
    as Hbase.
  { intros m. rewrite memberKey_head. by rewrite !lookup_insert_ne. }
  unfold rowDataOf, ownMembers. destruct (teamMembers reg) as [ms|]; simpl.
  - rewrite forEachFrom_lookup, Hbase, lookup_empty.
    rewrite decide_True by lia.
    by replace (index + 1 - 0 - 1) with index by lia.
  - by rewrite Hbase, lookup_empty.
Qed.

(** C6. The sheet has 6 + 3 * maxTeamMembers columns, where maxTeamMembers
    is the largest number of team members of a registration of the list
    (0 when no registration has members); the fourth column is the roll of
    the captain, and the row of a registration whose participant type is
    not INTERNAL shows EXTERNAL there. *)
Theorem export_columns (registrations : list Registration) :
  let ws := buildWorksheet registrations in
  length (columns ws) = 6 + 3 * maxTeamMembers registrations
  ∧ maxTeamMembers registrations = max_list_with teamSize registrations
  ∧ header <$> columns ws !! 3 = Some "Captain Roll"
  ∧ ∀ i reg,
      registrations !! i = Some reg →
      participantType reg ≠ "INTERNAL" →
      ∃ row, renderSheet ws !! i = Some row
             ∧ row !! 3 = Some (Some "EXTERNAL").
Proof.
  simpl. split; [apply sheetColumns_length|].
  split; [apply maxTeamMembers_max|]. split; [done|].
  intros i reg Hreg Htype. exists (renderRow (sheetColumns (maxTeamMembers registrations)) (rowDataOf reg)).
  unfold renderSheet. simpl. rewrite !list_lookup_fmap, Hreg. split; [done|].
  rewrite rowDataOf_capRoll.
  destruct (String.eqb_spec (participantType reg) "INTERNAL"); done.
Qed.

(** C7, as amended. In the row of a registration, the three cells of a
    slot filled by one of its own members show the name, the roll and the
    phone of that member, with a dash in place of a part that is empty or
    absent; the cells of a slot beyond its own members hold no value and
    stay blank. *)
Theorem member_cells (registrations : list Registration)
    (reg : Registration) (index : nat) (p : part) :
  index < maxTeamMembers registrations →
  renderRow (columns (buildWorksheet registrations)) (rowDataOf reg)
    !! (6 + 3 * index + partOffset p)
  = Some (match ownMembers reg !! index with
          | Some member => Some (JS.orElse (partOf p member) "-")
          | None => None
          end).
Proof.
  intros Hlt. unfold renderRow.
  change (columns (buildWorksheet registrations))
    with (sheetColumns (maxTeamMembers registrations)).
  rewrite list_lookup_fmap.
  pose proof (sheetColumns_member _ _ p Hlt) as Hkey.
  destruct (sheetColumns (maxTeamMembers registrations)
              !! (6 + 3 * index + partOffset p)) as [c|]; [|done].
  simpl in *. injection Hkey as ->. by rewrite rowDataOf_member.
Qed.

End ExportSheet.

Lemma export_columns_witness :
  let registrations := [Sample.internal; Sample.external] in
  let ws := @buildWorksheet Sample.runtime registrations in
  length (columns ws) = 9
  ∧ maxTeamMembers registrations = 1
  ∧ renderSheet ws !! 1
    = Some [Some "Guests"; Some "Eve"; Some "+91 99999-12345"; Some "EXTERNAL";
            Some "EXTERNAL"; Some "1700000001000"; None; None; None]
  ∧ ∃ row, renderSheet ws !! 1 = Some row ∧ row !! 3 = Some (Some "EXTERNAL").
Proof.
  pose proof (@export_columns Sample.runtime [Sample.internal; Sample.external])
    as (Hlen & Hmax & _ & Hext).
  split; [exact Hlen|]. split; [reflexivity|]. split; [vm_compute; reflexivity|].
  apply (Hext 1 Sample.external); [reflexivity|discriminate].
Defined.

(** C7, refuted as the specification words it: the second registration
    has no member while the first has one, and the three cells of slot 1 in
    the row of the second are blank, not dashes. *)
Lemma blank_slot_counterexample :
  let registrations := [Sample.internal; Sample.external] in
  let ws := @buildWorksheet Sample.runtime registrations in
  teamSize Sample.external < maxTeamMembers registrations
  ∧ key <$> columns ws !! 6 = Some "m1Name"
  ∧ @rowDataOf Sample.runtime Sample.external !! "m1Name" = None
  ∧ renderSheet ws !! 1
    = Some [Some "Guests"; Some "Eve"; Some "+91 99999-12345"; Some "EXTERNAL";
            Some "EXTERNAL"; Some "1700000001000"; None; None; None]
  ∧ (renderSheet ws !! 1) ≫= (.!! 6) ≠ Some (Some "-").
Proof.
  simpl. split; [vm_compute; lia|]. split; [reflexivity|].
  split; [vm_compute; reflexivity|]. split; [vm_compute; reflexivity|].
  vm_compute. discriminate.
Qed.

Lemma member_cells_witness :
  let registrations := [Sample.secondHasPhone; Sample.external] in
  let ws := @buildWorksheet Sample.runtime registrations in
  renderRow (columns ws) (@rowDataOf Sample.runtime Sample.secondHasPhone) !! 8
  = Some (Some "-")
  ∧ renderRow (columns ws) (@rowDataOf Sample.runtime Sample.external) !! 8
    = Some None.
Proof.
  split.
  - apply (@member_cells Sample.runtime
             [Sample.secondHasPhone; Sample.external] Sample.secondHasPhone 0 PPhone).
    vm_compute. lia.
  - apply (@member_cells Sample.runtime
             [Sample.secondHasPhone; Sample.external] Sample.external 0 PPhone).
    vm_compute. lia.
Defined.

(** ** One request at a time *)

Lemma run_bind {A B : Type} (p : prog A) (f : A → prog B) (db : DB) :
  run (bind p f) db = let '(a, db') := run p db in run (f a) db'.
Proof.
  revert db. induction p as [a|e k IH|e k IH|e k IH|e n t k IH]; intros db; simpl.
  - done.
  - apply IH.
  - apply IH.
  - destruct (dbCreate e db) as [r db']. apply IH.
  - destruct (dbFindOneAndUpdate e n t db) as [r db']. apply IH.
Qed.

Lemma ensured_lookup (db : DB) (e : string) :
  logs (ensured db e) !! e = Some (default (newLog e) (logs db !! e)).
Proof.
  unfold ensured. destruct (logs db !! e) as [l|] eqn:Hl; simpl; [done|].
  by rewrite lookup_insert_eq.
Qed.

Lemma ensured_registrations (db : DB) (e : string) :
  registrations (ensured db e) = registrations db.
Proof. unfold ensured. by destruct (logs db !! e). Qed.

Section Sequential.
Context `{!Runtime}.

Lemma run_ensureLog (e : string) (db : DB) :
  run (ensureLog e) db = (logs (ensured db e) !! e, ensured db e).
Proof.
  rewrite ensured_lookup. unfold ensureLog, ensured, findOne, create.
  simpl.
  destruct (logs db !! e) as [l|] eqn:Hl; simpl; [done|].
  unfold dbCreate. by rewrite Hl.
Qed.

Lemma run_resolveLock (admin : bool) (e name : string) (now : Z) (db : DB) :
  run (resolveLock admin e name now) db
  = if admin then ((false, logs db !! e), db)
    else match logs db !! e with
         | Some l =>
             if vCardsDownloaded l then ((false, Some l), db)
             else ((true, Some (claim l name now)),
                   withLogs db (<[e := claim l name now]> (logs db)))
         | None => ((false, None), db)
         end.
Proof.
  unfold resolveLock, findOne, findOneAndUpdate. destruct admin; simpl; [done|].
  unfold dbFindOneAndUpdate.
  destruct (logs db !! e) as [l|] eqn:Hl; simpl; rewrite ?Hl; [|done].
  destruct (vCardsDownloaded l); simpl; rewrite ?Hl; done.
Qed.

Lemma handleDownload_unfold (req : Request) (now : Z) :
  handleDownload req now
  = if authorized req then
      Find (eventName req)
           (λ registrations,
              match registrations with
              | [] => Ret noneRegistered
              | _ :: _ => ensurePhase req now registrations
              end)
    else Ret unauthorized.
Proof.
  unfold handleDownload, authorized, ensurePhase, lockPhase, finish.
  by destruct (isAdmin req), (invalidPasskey req).
Qed.

(** The handler, run alone. *)
Lemma run_handleDownload (req : Request) (now : Z) (db : DB) :
  run (handleDownload req now) db
  = if authorized req then
      match registrations db (eventName req) with
      | [] => (noneRegistered, db)
      | reg :: regs =>
          let '((isFirstDownload, logDetails), db') :=
            run (resolveLock (isAdmin req) (eventName req)
                             (coordinatorName req) now)
                (ensured db (eventName req)) in
          (respond (eventName req) (isAdmin req) (reg :: regs)
                   isFirstDownload logDetails, db')
      end
    else (unauthorized, db).
Proof.
  rewrite handleDownload_unfold. destruct (authorized req); [|done].
  cbn [run]. destruct (registrations db (eventName req)) as [|reg regs]; [done|].
  unfold ensurePhase, lockPhase. rewrite run_bind, run_ensureLog, run_bind.
  by destruct (run (resolveLock _ _ _ _) _) as [[f l] db'].
Qed.

End Sequential.

Lemma sameLocks_refl (db : DB) : sameLocks db db.
Proof. intros e. destruct (logs db !! e); auto. Qed.

Lemma sameLocks_trans (db1 db2 db3 : DB) :
  sameLocks db1 db2 → sameLocks db2 db3 → sameLocks db1 db3.
Proof.
  intros H12 H23 e. specialize (H12 e). specialize (H23 e).
  destruct (logs db1 !! e) as [l|].
  - by rewrite H12 in H23.
  - destruct H12 as [H12|H12]; rewrite H12 in H23; auto.
Qed.

Lemma sameLocks_ensured (db : DB) (e : string) : sameLocks db (ensured db e).
Proof.
  intros e'. unfold ensured. destruct (logs db !! e) as [l|] eqn:Hl.
  - destruct (logs db !! e'); auto.
  - simpl. destruct (decide (e = e')) as [->|Hne].
    + rewrite Hl, lookup_insert_eq. auto.
    + rewrite lookup_insert_ne by done. destruct (logs db !! e'); auto.
Qed.

Section Requests.
Context `{!Runtime}.

Lemma isAdmin_spec (req : Request) :
  isAdmin req = true
  ↔ ∃ masterKey, env !! "PASSKEY_MASTER" = Some masterKey
                 ∧ masterKey ≠ "" ∧ passkey req = masterKey.
Proof.
  unfold isAdmin, JS.truthy, JS.strictEq.
  destruct (env !! "PASSKEY_MASTER") as [[|c k]|].
  - split; [done|]. by intros (? & [= <-] & ? & _).
  - rewrite andb_true_l, String.eqb_eq. split.
    + intros <-. by exists (String c k).
    + by intros (? & [= <-] & _ & ->).
  - split; [done|]. by intros (? & ? & _).
Qed.

Lemma invalidPasskey_spec (req : Request) :
  invalidPasskey req = true
  ↔ ∀ secret, env !! envKey req = Some secret → secret ≠ "" →
              secret ≠ passkey req.
Proof.
  unfold invalidPasskey, JS.truthy, JS.strictEq.
  destruct (env !! envKey req) as [[|c k]|].
  - split; [|done]. by intros _ secret [= <-].
  - rewrite orb_false_l, negb_true_iff, String.eqb_neq. split.
    + by intros Hne secret [= <-] _.
    + intros Hall. by apply Hall.
  - split; [|done]. by intros _ secret [=].
Qed.

(** C4. The caller is admin exactly when a master secret is configured
    (set, and not empty) and equal to the passkey. A caller who is not admin
    and whose passkey is not the secret configured under [PASSKEY_] followed
    by the uppercased [coordsValue] (a secret that differs, or no secret
    there) gets the 401 response, and the request ends there: it makes no
    call on the registrations or on the lock records. *)
Theorem unauthorized_before_data_access (req : Request) (now : Z) :
  (isAdmin req = true
   ↔ ∃ masterKey, env !! "PASSKEY_MASTER" = Some masterKey
                  ∧ masterKey ≠ "" ∧ passkey req = masterKey)
  ∧ (isAdmin req = false →
     (∀ secret,
        env !! ("PASSKEY_" +:+ JS.toUpperCase (coordsValue req)) = Some secret →
        secret ≠ "" → secret ≠ passkey req) →
     handleDownload req now
     = Ret {| status := 401; body := [("error", JString "Invalid Passkey")] |}
     ∧ ∀ db, run (handleDownload req now) db = (unauthorized, db)).
Proof.
  split; [apply isAdmin_spec|]. intros Hadmin Hkey.
  apply invalidPasskey_spec in Hkey.
  assert (handleDownload req now = Ret unauthorized) as ->; [|done].
  rewrite handleDownload_unfold. unfold authorized. by rewrite Hadmin, Hkey.
Qed.

(** C5. An authorized request on an event without registrations gets the
    response [{ success: false, message: "No one registered yet!" }] with
    status 200, and leaves the store as it was: no lock record is created
    or changed. *)
Theorem none_registered_no_lock (req : Request) (now : Z) (db : DB) :
  authorized req = true →
  registrations db (eventName req) = [] →
  run (handleDownload req now) db
  = ({| status := 200;
        body := [("success", JBool false);
                 ("message", JString "No one registered yet!")] |}, db).
Proof.
  intros Hauth Hregs. by rewrite run_handleDownload, Hauth, Hregs.
Qed.

Lemma claimed_ensured (db : DB) (e : string) :
  claimed (ensured db e) e = claimed db e.
Proof.
  unfold claimed. rewrite ensured_lookup. by destruct (logs db !! e).
Qed.

(** C3. An authorized request on an event with registrations gets a
    success response with the export; its [vcf] is not null exactly when
    the caller is admin or is the coordinator whose request takes the lock
    from unclaimed to claimed; a coordinator who finds the lock claimed gets
    [vcf: null] with the same export, and changes nothing. *)
Theorem vcf_iff_full_access (req : Request) (now : Z) (db : DB) :
  authorized req = true →
  registrations db (eventName req) ≠ [] →
  ∃ message vcf db',
    run (handleDownload req now) db
    = (success message
               (xlsxBase64 (buildWorksheet (registrations db (eventName req))))
               vcf, db')
    ∧ (vcf ≠ JNull
       ↔ isAdmin req = true
         ∨ (claimed db (eventName req) = false
            ∧ logs db' !! eventName req
              = Some (claim (default (newLog (eventName req))
                                     (logs db !! eventName req))
                            (coordinatorName req) now)))
    ∧ (vcf ≠ JNull →
       vcf = JString (vCardContent (eventName req)
                                   (registrations db (eventName req))))
    ∧ (isAdmin req = false → claimed db (eventName req) = true →
       vcf = JNull ∧ db' = db).
Proof.
  intros Hauth Hregs. rewrite run_handleDownload, Hauth, run_resolveLock.
  destruct (registrations db (eventName req)) as [|reg regs]; [done|].
  rewrite ensured_lookup. unfold respond, claimed, ensured.
  destruct (isAdmin req) eqn:Hadmin; simpl.
  - eexists _, _, _. split; [done|]. split; [|done]. split; [auto|done].
  - destruct (logs db !! eventName req) as [l|] eqn:Hl; simpl.
    + destruct (vCardsDownloaded l) eqn:Hclaimed; simpl.
      * eexists _, _, _. split; [done|]. split; [|done].
        split; [done|]. by intros [|[? _]].
      * eexists _, _, _. split; [done|]. split; [|done].
        split; [|done]. intros _. right. split; [done|].
        apply lookup_insert_eq.
    + eexists _, _, _. split; [done|]. split; [|done].
      split; [|done]. intros _. right. split; [done|].
      simpl. by rewrite insert_insert_eq, lookup_insert_eq.
Qed.

Lemma run_admin_sameLocks (req : Request) (now : Z) (db : DB) :
  isAdmin req = true → sameLocks db (run (handleDownload req now) db).2.
Proof.
  intros Hadmin. rewrite run_handleDownload, run_resolveLock, Hadmin.
  destruct (authorized req); [|apply sameLocks_refl].
  destruct (registrations db (eventName req)); [apply sameLocks_refl|].
  apply sameLocks_ensured.
Qed.

Lemma runAll_admin_sameLocks (reqs : list (Request * Z)) (db : DB) :
  Forall (λ rq, isAdmin rq.1 = true) reqs → sameLocks db (runAll reqs db).2.
Proof.
  intros Hadmin. revert db.
  induction Hadmin as [|[req now] reqs Hreq _ IH]; intros db.
  - apply sameLocks_refl.
  - simpl. pose proof (run_admin_sameLocks req now db Hreq) as Hone.
    destruct (run (handleDownload req now) db) as [r db1].
    specialize (IH db1). destruct (runAll reqs db1) as [rs db2].
    by eapply sameLocks_trans.
Qed.

End Requests.

Lemma unauthorized_before_data_access_witness :
  @isAdmin Sample.runtime Sample.intruder = false
  ∧ @handleDownload Sample.runtime Sample.intruder 5
    = Ret {| status := 401; body := [("error", JString "Invalid Passkey")] |}
  ∧ @run Response (@handleDownload Sample.runtime Sample.intruder 5) Sample.db
    = (unauthorized, Sample.db).
Proof.
  destruct (@unauthorized_before_data_access Sample.runtime Sample.intruder 5)
    as [_ Hreject].
  destruct Hreject as [Hret Hrun];
    [reflexivity|intros secret [= <-] _; discriminate|].
  split; [reflexivity|]. split; [exact Hret|apply Hrun].
Defined.

Lemma none_registered_no_lock_witness :
  @run Response (@handleDownload Sample.runtime Sample.emptyEvent 5) Sample.db
  = ({| status := 200;
        body := [("success", JBool false);
                 ("message", JString "No one registered yet!")] |}, Sample.db).
Proof.
  apply (@none_registered_no_lock Sample.runtime Sample.emptyEvent 5 Sample.db);
    reflexivity.
Defined.

(** ** Requests in flight together *)

Lemma evolves_refl (db : DB) : evolves db db.
Proof. intros e l Hl. by exists l. Qed.

Lemma evolves_logs (db db' : DB) : logs db' = logs db → evolves db db'.
Proof. intros Heq e l Hl. exists l. by rewrite Heq. Qed.

Lemma evolves_is_Some (db db' : DB) (e : string) :
  evolves db db' → is_Some (logs db !! e) → is_Some (logs db' !! e).
Proof. intros Hev [l Hl]. destruct (Hev e l Hl) as (l' & Hl' & _). by exists l'. Qed.

Lemma evolves_claimed_lookup (db db' : DB) (e : string) (l : CoordinatorLog) :
  evolves db db' → logs db !! e = Some l → vCardsDownloaded l = true →
  logs db' !! e = Some l.
Proof.
  intros Hev Hl Hc. destruct (Hev e l Hl) as (l' & Hl' & Hsame).
  by rewrite Hl', (Hsame Hc).
Qed.

Lemma evolves_claimed (db db' : DB) (e : string) :
  evolves db db' → claimed db e = true → claimed db' e = true.
Proof.
  unfold claimed. intros Hev Hc.
  destruct (logs db !! e) as [l|] eqn:Hl; [|done].
  by rewrite (evolves_claimed_lookup db db' e l).
Qed.

Lemma dbCreate_evolves (e : string) (db : DB) : evolves db (dbCreate e db).2.
Proof.
  unfold dbCreate. destruct (logs db !! e) as [l|] eqn:Hl; simpl.
  - apply evolves_refl.
  - intros e' l' Hl'. exists l'. split; [|done]. simpl.
    rewrite lookup_insert_ne; [done|]. intros ->. congruence.
Qed.

Lemma dbFindOneAndUpdate_evolves (e name : string) (now : Z) (db : DB) :
  evolves db (dbFindOneAndUpdate e name now db).2.
Proof.
  unfold dbFindOneAndUpdate. destruct (logs db !! e) as [l|] eqn:Hl; simpl.
  - destruct (vCardsDownloaded l) eqn:Hc; simpl; [apply evolves_refl|].
    intros e' l' Hl'. simpl. destruct (decide (e = e')) as [<-|Hne].
    + exists (claim l name now). rewrite lookup_insert_eq. split; [done|].
      congruence.
    + exists l'. by rewrite lookup_insert_ne.
  - apply evolves_refl.
Qed.

Lemma stepProg_evolves {A : Type} (p p' : prog A) (db db' : DB) :
  stepProg p db = Some (p', db') → evolves db db'.
Proof.
  destruct p as [a|e k|e k|e k|e n t k]; simpl; intros Hstep.
  - done.
  - injection Hstep as _ <-. apply evolves_refl.
  - injection Hstep as _ <-. apply evolves_refl.
  - pose proof (dbCreate_evolves e db) as Hev.
    destruct (dbCreate e db) as [r db1]. by injection Hstep as _ <-.
  - pose proof (dbFindOneAndUpdate_evolves e n t db) as Hev.
    destruct (dbFindOneAndUpdate e n t db) as [r db1]. by injection Hstep as _ <-.
Qed.

Section Interleaving.
Context `{!Runtime}.

(** The awaited calls of the handler, one by one. *)

Lemma step_start (req : Request) (now : Z) (db : DB) :
  stepProg (handleDownload req now) db
  = if authorized req then
      Some (match registrations db (eventName req) with
            | [] => Ret noneRegistered
            | reg :: regs => ensurePhase req now (reg :: regs)
            end, db)
    else None.
Proof.
  rewrite handleDownload_unfold. destruct (authorized req); [|done].
  simpl. by destruct (registrations db (eventName req)).
Qed.

Lemma step_ensure (req : Request) (now : Z) (regs : list Registration) (db : DB) :
  stepProg (ensurePhase req now regs) db
  = Some (match logs db !! eventName req with
          | Some _ => lockPhase req now regs
          | None => createPhase req now regs
          end, db).
Proof.
  unfold ensurePhase, ensureLog, findOne. simpl.
  by destruct (logs db !! eventName req).
Qed.

Lemma step_create (req : Request) (now : Z) (regs : list Registration) (db : DB) :
  stepProg (createPhase req now regs) db
  = Some (match logs db !! eventName req with
          | Some _ => (refetchPhase req now regs, db)
          | None =>
              (lockPhase req now regs,
               withLogs db (<[eventName req := newLog (eventName req)]> (logs db)))
          end).
Proof.
  unfold createPhase, createLog, create. simpl. unfold dbCreate.
  by destruct (logs db !! eventName req).
Qed.

Lemma step_refetch (req : Request) (now : Z) (regs : list Registration) (db : DB) :
  stepProg (refetchPhase req now regs) db = Some (lockPhase req now regs, db).
Proof. done. Qed.

Lemma step_lock_admin (req : Request) (now : Z) (regs : list Registration)
    (db : DB) :
  isAdmin req = true →
  stepProg (lockPhase req now regs) db
  = Some (Ret (respond (eventName req) true regs false
                       (logs db !! eventName req)), db).
Proof.
  intros Hadmin. unfold lockPhase, resolveLock, finish. rewrite Hadmin.
  reflexivity.
Qed.

Lemma step_lock_coordinator (req : Request) (now : Z)
    (regs : list Registration) (db : DB) :
  isAdmin req = false →
  stepProg (lockPhase req now regs) db
  = Some (match logs db !! eventName req with
          | Some l =>
              if vCardsDownloaded l then (lateReadPhase req regs, db)
              else (Ret (respond (eventName req) false regs true
                                 (Some (claim l (coordinatorName req) now))),
                    withLogs db (<[eventName req := claim l (coordinatorName req) now]>
                                   (logs db)))
          | None => (lateReadPhase req regs, db)
          end).
Proof.
  intros Hadmin. unfold lateReadPhase, lockPhase, resolveLock, finish.
  rewrite Hadmin. simpl. unfold dbFindOneAndUpdate.
  destruct (logs db !! eventName req) as [l|]; [|done].
  by destruct (vCardsDownloaded l).
Qed.

Lemma step_lateRead (req : Request) (regs : list Registration) (db : DB) :
  stepProg (lateReadPhase req regs) db
  = Some (Ret (respond (eventName req) (isAdmin req) regs false
                       (logs db !! eventName req)), db).
Proof. done. Qed.

End Interleaving.

Section Invariant.
Context `{!Runtime}.

Lemma late_response_not_first (e : string) (regs : list Registration)
    (l : CoordinatorLog) :
  field "message" (respond e false regs false (Some l))
  ≠ Some (JString firstMessage).
Proof. intros Heq. discriminate Heq. Qed.

Lemma lockPhase_not_Ret (req : Request) (now : Z) (regs : list Registration)
    (r : Response) :
  lockPhase req now regs ≠ Ret r.
Proof. unfold lockPhase, resolveLock. by destruct (isAdmin req). Qed.

Lemma outcome_evolves (db db' : DB) (t : thread) (r : Response) :
  evolves db db' → outcome db t r → outcome db' t r.
Proof.
  intros Hev [| |regs l Hadmin|regs l Hadmin Hl Hc Hn Ht|regs l Hadmin Hl Hc].
  - apply out_unauthorized.
  - apply out_noneRegistered.
  - by apply out_admin.
  - apply out_first; eauto using evolves_claimed_lookup.
  - apply out_late; eauto using evolves_claimed_lookup.
Qed.

Lemma outcome_resume (db : DB) (t : thread) (code : prog Response)
    (r : Response) :
  outcome db t r → outcome db (resume t code) r.
Proof.
  intros [| |regs l Hadmin|regs l Hadmin Hl Hc Hn Ht|regs l Hadmin Hl Hc].
  - apply out_unauthorized.
  - apply out_noneRegistered.
  - by apply (out_admin db (resume t code)).
  - by apply (out_first db (resume t code)).
  - by apply (out_late db (resume t code)).
Qed.

Lemma at_point_evolves (db db' : DB) (t : thread) :
  evolves db db' → at_point db t → at_point db' t.
Proof.
  intros Hev [Hc|regs Hc|regs Hc|regs Hc Hl|regs Hc Hl|regs Hadmin Hc Hl|r Hc Hout].
  - by apply at_start.
  - by eapply at_ensure.
  - by eapply at_create.
  - eapply at_refetch; eauto using evolves_is_Some.
  - eapply at_lock; eauto using evolves_is_Some.
  - eapply at_lateRead; eauto using evolves_claimed.
  - eapply at_done; eauto using outcome_evolves.
Qed.

(** A finished request that shows the message of the first coordinator
    has its name and its time in the record of the event. *)
Lemma winner_record (db : DB) (t : thread) :
  at_point db t → isWinner t →
  ∃ l, logs db !! eventName (t_req t) = Some l
       ∧ vCardsDownloaded l = true
       ∧ firstDownloaderName l = Some (coordinatorName (t_req t))
       ∧ downloadTime l = Some (t_now t).
Proof.
  intros Hat [Hadmin (r & Hcode & Hmsg)].
  destruct Hat as [Hc|regs Hc|regs Hc|regs Hc Hl|regs Hc Hl|regs _ Hc Hl|r' Hc Hout];
    rewrite Hcode in Hc.
  - rewrite handleDownload_unfold in Hc.
    destruct (authorized (t_req t)); [done|]. by injection Hc as ->.
  - done.
  - done.
  - done.
  - by apply eq_sym, lockPhase_not_Ret in Hc.
  - done.
  - injection Hc as <-.
    destruct Hout as [| |regs l Ha|regs l Ha Hl Hcl Hn Ht|regs l Ha Hl Hcl].
    + done.
    + done.
    + congruence.
    + by exists l.
    + by apply late_response_not_first in Hmsg.
Qed.

Lemma winner_claimed (db : DB) (t : thread) :
  at_point db t → isWinner t → claimed db (eventName (t_req t)) = true.
Proof.
  intros Hat Hwin. destruct (winner_record db t Hat Hwin) as (l & Hl & Hc & _).
  unfold claimed. by rewrite Hl.
Qed.

(** One call of a request: it stands at a point again, and if the call
    made it the first coordinator then the lock was unclaimed until then. *)
Lemma at_point_step (db db' : DB) (t : thread) (code' : prog Response) :
  at_point db t →
  stepProg (t_code t) db = Some (code', db') →
  at_point db' (resume t code')
  ∧ (isWinner (resume t code') → claimed db (eventName (t_req t)) = false).
Proof.
  intros Hat Hstep.
  destruct Hat as [Hc|regs Hc|regs Hc|regs Hc Hl|regs Hc Hl|regs Hadmin Hc Hl|r Hc Hout];
    rewrite Hc in Hstep.
  - rewrite step_start in Hstep. destruct (authorized (t_req t)); [|done].
    injection Hstep as <- <-.
    destruct (registrations db (eventName (t_req t))) as [|reg regs].
    + split.
      * eapply at_done; [done|]. apply out_noneRegistered.
      * by intros [_ (r & [= <-] & Hmsg)].
    + split.
      * by eapply at_ensure.
      * by intros [_ (r & Hr & _)].
  - rewrite step_ensure in Hstep. injection Hstep as <- <-.
    destruct (logs db !! eventName (t_req t)) as [l|] eqn:Hl.
    + split.
      * eapply at_lock; [done|]. simpl. by rewrite Hl.
      * intros [_ (r & Hr & _)]. by apply lockPhase_not_Ret in Hr.
    + split.
      * by eapply at_create.
      * by intros [_ (r & Hr & _)].
  - rewrite step_create in Hstep. injection Hstep as Hstep.
    destruct (logs db !! eventName (t_req t)) as [l|] eqn:Hl;
      injection Hstep as <- <-.
    + split.
      * eapply at_refetch; [done|]. simpl. by rewrite Hl.
      * by intros [_ (r & Hr & _)].
    + split.
      * eapply at_lock; [done|]. simpl. by rewrite lookup_insert_eq.
      * intros [_ (r & Hr & _)]. by apply lockPhase_not_Ret in Hr.
  - rewrite step_refetch in Hstep. injection Hstep as <- <-. split.
    + by eapply at_lock.
    + intros [_ (r & Hr & _)]. by apply lockPhase_not_Ret in Hr.
  - destruct (isAdmin (t_req t)) eqn:Hadmin.
    + rewrite step_lock_admin in Hstep by done. injection Hstep as <- <-. split.
      * eapply at_done; [done|]. apply outcome_resume. by apply out_admin.
      * intros [Ha _]. simpl in Ha. congruence.
    + rewrite step_lock_coordinator in Hstep by done. injection Hstep as Hstep.
      destruct Hl as [l Hl]. rewrite Hl in Hstep.
      destruct (vCardsDownloaded l) eqn:Hcl; injection Hstep as <- <-.
      * split.
        -- eapply at_lateRead; [done|done|]. unfold claimed. simpl. by rewrite Hl.
        -- by intros [_ (r & Hr & _)].
      * split.
        -- eapply at_done; [done|]. apply outcome_resume.
           apply out_first; simpl; auto. by rewrite lookup_insert_eq.
        -- intros _. unfold claimed. by rewrite Hl.
  - rewrite step_lateRead in Hstep. injection Hstep as <- <-.
    unfold claimed in Hl.
    destruct (logs db !! eventName (t_req t)) as [l|] eqn:Hlog; [|done].
    split.
    + eapply at_done; [done|]. apply outcome_resume.
      rewrite Hadmin. by apply out_late.
    + intros [_ (r & [= <-] & Hmsg)]. rewrite Hadmin in Hmsg.
      by apply late_response_not_first in Hmsg.
  - done.
Qed.

End Invariant.

Section Reachable.
Context `{!Runtime}.

Lemma spawn_not_winner (req : Request) (now : Z) : ¬ isWinner (spawn req now).
Proof.
  intros [_ (r & Hr & Hmsg)]. simpl in Hr. rewrite handleDownload_unfold in Hr.
  destruct (authorized req); [done|]. by injection Hr as <-.
Qed.

Lemma invariant_step (c c' : config) : invariant c → step c c' → invariant c'.
Proof.
  intros [Hat Huniq] Hstep.
  destruct Hstep as [pool db req now|pool db i t code' db' Hi Hcall|pool db regs'];
    simpl in *.
  - split; simpl.
    + intros k tk [Hk|[_ Hk]]%lookup_app_Some; [by eapply Hat|].
      apply list_lookup_singleton_Some in Hk as [_ <-]. by apply at_start.
    + intros a b ta tb Ha Hb Hwa Hwb He.
      apply lookup_app_Some in Ha as [Ha|[_ Ha]]; last first.
      { apply list_lookup_singleton_Some in Ha as [_ <-].
        by apply spawn_not_winner in Hwa. }
      apply lookup_app_Some in Hb as [Hb|[_ Hb]]; last first.
      { apply list_lookup_singleton_Some in Hb as [_ <-].
        by apply spawn_not_winner in Hwb. }
      by eapply Huniq.
  - pose proof (lookup_lt_Some _ _ _ Hi) as Hlt.
    pose proof (stepProg_evolves _ _ _ _ Hcall) as Hev.
    destruct (at_point_step db db' t code' (Hat i t Hi) Hcall) as [Hat' Hwin].
    split; simpl.
    + intros k tk Hk. destruct (decide (i = k)) as [<-|Hne].
      * rewrite list_lookup_insert_eq in Hk by done. by injection Hk as <-.
      * rewrite list_lookup_insert_ne in Hk by done.
        eapply at_point_evolves; eauto.
    + intros a b ta tb Ha Hb Hwa Hwb He.
      destruct (decide (i = a)) as [<-|Hia], (decide (i = b)) as [<-|Hib].
      * done.
      * rewrite list_lookup_insert_eq in Ha by done. injection Ha as <-.
        rewrite list_lookup_insert_ne in Hb by done.
        pose proof (winner_claimed db tb (Hat b tb Hb) Hwb) as Hclaimed.
        simpl in He. rewrite <- He, (Hwin Hwa) in Hclaimed. done.
      * rewrite list_lookup_insert_eq in Hb by done. injection Hb as <-.
        rewrite list_lookup_insert_ne in Ha by done.
        pose proof (winner_claimed db ta (Hat a ta Ha) Hwa) as Hclaimed.
        simpl in He. rewrite He, (Hwin Hwb) in Hclaimed. done.
      * rewrite list_lookup_insert_ne in Ha by done.
        rewrite list_lookup_insert_ne in Hb by done. by eapply Huniq.
  - split; simpl.
    + intros k tk Hk. eapply at_point_evolves; [|by eapply Hat].
      by apply evolves_logs.
    + done.
Qed.

Lemma invariant_steps (c c' : config) :
  rtc step c c' → invariant c → invariant c'.
Proof. induction 1; eauto using invariant_step. Qed.

Lemma reachable_invariant (db0 : DB) (c : config) :
  reachable db0 c → invariant c.
Proof.
  unfold reachable. intros Hreach. eapply invariant_steps; [done|].
  split; simpl; [intros i t Hi|intros i j ti tj Hi]; by rewrite lookup_nil in Hi.
Qed.

(** C1. Among the requests in flight on an event, in every interleaving
    of their calls on the store, a coordinator (a caller who is not admin)
    who got the message of the first coordinator is the one whose name and
    time the lock record holds; every other coordinator on that event who
    got a success response got the late one: its message names the record
    of the first, its [vcf] is null, and it is not the message of the
    first coordinator. So at most one coordinator per event sees the claim
    succeed. *)
Theorem at_most_one_first_download (db0 : DB) (pool : list thread) (db : DB)
    (i j : nat) (ti tj : thread) (ri rj : Response) :
  reachable db0 (pool, db) →
  pool !! i = Some ti → pool !! j = Some tj → i ≠ j →
  isAdmin (t_req ti) = false → isAdmin (t_req tj) = false →
  eventName (t_req ti) = eventName (t_req tj) →
  t_code ti = Ret ri → field "message" ri = Some (JString firstMessage) →
  t_code tj = Ret rj → field "success" rj = Some (JBool true) →
  ∃ l, logs db !! eventName (t_req ti) = Some l
       ∧ vCardsDownloaded l = true
       ∧ firstDownloaderName l = Some (coordinatorName (t_req ti))
       ∧ downloadTime l = Some (t_now ti)
       ∧ field "message" rj = Some (JString (lateMessage l))
       ∧ field "vcf" rj = Some JNull
       ∧ field "message" rj ≠ Some (JString firstMessage).
Proof.
  intros Hreach Hi Hj Hij Hai Haj He Hci Hmi Hcj Hsj.
  destruct (reachable_invariant _ _ Hreach) as [Hat Huniq]. simpl in *.
  assert (isWinner ti) as Hwi by (split; eauto).
  destruct (winner_record db ti (Hat i ti Hi) Hwi) as (l & Hl & Hcl & Hn & Ht).
  exists l. do 4 (split; [done|]).
  destruct (Hat j tj Hj)
    as [Hc|regs Hc|regs Hc|regs Hc _|regs Hc _|regs _ Hc _|r Hc Hout];
    rewrite Hcj in Hc.
  - rewrite handleDownload_unfold in Hc.
    destruct (authorized (t_req tj)); [done|]. by injection Hc as ->.
  - done.
  - done.
  - done.
  - by apply eq_sym, lockPhase_not_Ret in Hc.
  - done.
  - injection Hc as <-.
    destruct Hout as [| |regs l' Ha|regs l' Ha Hl' Hcl' Hn' Ht'|regs l' Ha Hl' Hcl'].
    + done.
    + done.
    + congruence.
    + destruct Hij. apply (Huniq i j ti tj); try done. split; eauto.
    + rewrite <- He, Hl in Hl'. injection Hl' as <-.
      split; [done|]. split; [done|]. apply late_response_not_first.
Qed.

(** Serving a request alone, call after call, is one of the interleavings. *)
Lemma steps_run (pool : list thread) (req : Request) (now : Z)
    (p : prog Response) (db : DB) :
  rtc step (pool ++ [{| t_req := req; t_now := now; t_code := p |}], db)
      (pool ++ [{| t_req := req; t_now := now; t_code := Ret (run p db).1 |}],
       (run p db).2).
Proof.
  assert (∀ (p p' : prog Response) (db db' : DB),
    stepProg p db = Some (p', db') →
    step (pool ++ [{| t_req := req; t_now := now; t_code := p |}], db)
         (pool ++ [{| t_req := req; t_now := now; t_code := p' |}], db'))
    as Hone.
  { intros q q' d d' Hq.
    pose proof (step_call (pool ++ [{| t_req := req; t_now := now; t_code := q |}])
                  d (length pool) {| t_req := req; t_now := now; t_code := q |}
                  q' d') as Hs.
    rewrite list_lookup_middle in Hs by done. specialize (Hs eq_refl Hq).
    rewrite <- (Nat.add_0_r (length pool)), insert_app_r in Hs. exact Hs. }
  revert db. induction p as [a|e k IH|e k IH|e k IH|e n t k IH]; intros db; simpl.
  - done.
  - eapply rtc_l; [apply Hone; reflexivity|]. apply IH.
  - eapply rtc_l; [apply Hone; reflexivity|]. apply IH.
  - destruct (dbCreate e db) as [r db1] eqn:Hop.
    eapply rtc_l; [apply Hone; simpl; by rewrite Hop|]. apply IH.
  - destruct (dbFindOneAndUpdate e n t db) as [r db1] eqn:Hop.
    eapply rtc_l; [apply Hone; simpl; by rewrite Hop|]. apply IH.
Qed.

Lemma runPool_steps (reqs : list (Request * Z)) (pool : list thread) (db : DB) :
  rtc step (pool, db) (pool ++ (runPool reqs db).1, (runPool reqs db).2).
Proof.
  revert pool db. induction reqs as [|[req now] reqs IH]; intros pool db; simpl.
  - by rewrite app_nil_r.
  - eapply rtc_l; [apply (step_arrive pool db req now)|].
    etrans; [apply steps_run|]. simpl.
    destruct (run (handleDownload req now) db) as [r db1]. simpl.
    specialize (IH (pool ++ [{| t_req := req; t_now := now; t_code := Ret r |}]) db1).
    destruct (runPool reqs db1) as [ts db2]. simpl in *.
    by rewrite <- app_assoc in IH.
Qed.

Lemma runPool_reachable (reqs : list (Request * Z)) (db0 : DB) :
  reachable db0 (runPool reqs db0).
Proof.
  pose proof (runPool_steps reqs [] db0) as Hsteps.
  by destruct (runPool reqs db0).
Qed.

(** A call of an admin request in flight reads the store, or creates the
    missing record of its event. *)
Lemma admin_call_sameLocks (db db' : DB) (t : thread) (code' : prog Response) :
  at_point db t → isAdmin (t_req t) = true →
  stepProg (t_code t) db = Some (code', db') → sameLocks db db'.
Proof.
  intros Hat Hadmin Hstep.
  destruct Hat as [Hc|regs Hc|regs Hc|regs Hc Hl|regs Hc Hl|regs Hna Hc Hl|r Hc Hout];
    rewrite Hc in Hstep.
  - rewrite step_start in Hstep. destruct (authorized (t_req t)); [|done].
    injection Hstep as _ <-. apply sameLocks_refl.
  - rewrite step_ensure in Hstep. injection Hstep as _ <-. apply sameLocks_refl.
  - rewrite step_create in Hstep. injection Hstep as Hstep.
    pose proof (sameLocks_ensured db (eventName (t_req t))) as Hsame.
    unfold ensured in Hsame.
    destruct (logs db !! eventName (t_req t)); by injection Hstep as _ <-.
  - rewrite step_refetch in Hstep. injection Hstep as _ <-. apply sameLocks_refl.
  - rewrite step_lock_admin in Hstep by done. injection Hstep as _ <-.
    apply sameLocks_refl.
  - congruence.
  - done.
Qed.

(** C2. Admin requests, however many and whatever the store they find,
    leave every lock record as it was: the fields [vCardsDownloaded],
    [firstDownloaderName] and [downloadTime] of a record are never written
    by them, and the one thing they may add to the store is the fresh,
    unclaimed record of an event that had none ([sameLocks]). This holds
    for admin requests served one after the other, and for each call of an
    admin request in flight among other requests. *)
Theorem admin_never_mutates :
  (∀ (reqs : list (Request * Z)) (db : DB),
      Forall (λ rq, isAdmin rq.1 = true) reqs →
      ∀ e, match logs db !! e with
           | Some l => logs (runAll reqs db).2 !! e = Some l
           | None => logs (runAll reqs db).2 !! e = None
                     ∨ logs (runAll reqs db).2 !! e = Some (newLog e)
           end)
  ∧ (∀ (db0 : DB) (pool : list thread) (db db' : DB) (i : nat) (t : thread)
       (code' : prog Response),
        reachable db0 (pool, db) →
        pool !! i = Some t →
        isAdmin (t_req t) = true →
        stepProg (t_code t) db = Some (code', db') →
        ∀ e, match logs db !! e with
             | Some l => logs db' !! e = Some l
             | None => logs db' !! e = None ∨ logs db' !! e = Some (newLog e)
             end).
Proof.
  split.
  - intros reqs db Hadmin. by apply runAll_admin_sameLocks.
  - intros db0 pool db db' i t code' Hreach Hi Hadmin Hstep.
    destruct (reachable_invariant _ _ Hreach) as [Hat _].
    apply (admin_call_sameLocks db db' t code'); [by apply (Hat i t)|done..].
Qed.

End Reachable.

Lemma admin_never_mutates_witness :
  let claimedDb :=
    (@run Response (@handleDownload Sample.runtime Sample.coordinator 7) Sample.db).2 in
  let admins := [(Sample.admin, 8%Z); (Sample.admin, 9%Z)] in
  logs claimedDb !! "Hackathon" = Some (claim (newLog "Hackathon") "Carol" 7)
  ∧ logs (@runAll Sample.runtime admins claimedDb).2 !! "Hackathon"
    = Some (claim (newLog "Hackathon") "Carol" 7)
  ∧ (logs (@runAll Sample.runtime admins Sample.db).2 !! "Hackathon" = None
     ∨ logs (@runAll Sample.runtime admins Sample.db).2 !! "Hackathon"
       = Some (newLog "Hackathon"))
  ∧ (logs Sample.db !! "Hackathon" = None
     ∨ logs Sample.db !! "Hackathon" = Some (newLog "Hackathon")).
Proof.
  simpl. destruct (@admin_never_mutates Sample.runtime) as [Hseq Hcall].
  split; [vm_compute; reflexivity|]. split; [|split].
  - apply (Hseq [(Sample.admin, 8%Z); (Sample.admin, 9%Z)]
             (@run Response (@handleDownload Sample.runtime Sample.coordinator 7)
                   Sample.db).2
             ltac:(repeat constructor) "Hackathon").
  - apply (Hseq [(Sample.admin, 8%Z); (Sample.admin, 9%Z)] Sample.db
             ltac:(repeat constructor) "Hackathon").
  - apply (Hcall Sample.db [@spawn Sample.runtime Sample.admin 8] Sample.db Sample.db
             0 (@spawn Sample.runtime Sample.admin 8)
             (@ensurePhase Sample.runtime Sample.admin 8
                           [Sample.internal; Sample.external])
             (rtc_once _ _ (@step_arrive Sample.runtime [] Sample.db Sample.admin 8))
             eq_refl eq_refl eq_refl "Hackathon").
Defined.

Lemma at_most_one_first_download_witness :
  let first :=
    @run Response (@handleDownload Sample.runtime Sample.coordinator 7) Sample.db in
  let second :=
    @run Response (@handleDownload Sample.runtime Sample.secondCoordinator 9) first.2 in
  field "message" first.1 = Some (JString firstMessage)
  ∧ ∃ l, logs second.2 !! "Hackathon" = Some l
         ∧ vCardsDownloaded l = true
         ∧ firstDownloaderName l = Some "Carol"
         ∧ downloadTime l = Some 7%Z
         ∧ field "message" second.1 = Some (JString (@lateMessage Sample.runtime l))
         ∧ field "vcf" second.1 = Some JNull
         ∧ field "message" second.1 ≠ Some (JString firstMessage).
Proof.
  split; [vm_compute; reflexivity|].
  exact (@at_most_one_first_download Sample.runtime Sample.db _ _ 0 1 _ _ _ _
           (@runPool_reachable Sample.runtime
              [(Sample.coordinator, 7%Z); (Sample.secondCoordinator, 9%Z)] Sample.db)
           eq_refl eq_refl ltac:(discriminate) eq_refl eq_refl eq_refl
           eq_refl eq_refl eq_refl eq_refl).
Defined.

Lemma vcf_iff_full_access_witness :
  let first :=
    @run Response (@handleDownload Sample.runtime Sample.coordinator 7) Sample.db in
  let second :=
    @run Response (@handleDownload Sample.runtime Sample.secondCoordinator 9) first.2 in
  (∃ message vcf db',
      first = (success message "UEsDBA==" vcf, db') ∧ vcf ≠ JNull)
  ∧ (∃ message vcf db',
        second = (success message "UEsDBA==" vcf, db') ∧ vcf = JNull).
Proof.
  simpl. split.
  - destruct (@vcf_iff_full_access Sample.runtime Sample.coordinator 7 Sample.db)
      as (message & vcf & db' & Hrun & Hiff & _); [reflexivity|discriminate|].
    exists message, vcf, db'. split; [exact Hrun|].
    apply Hiff. right. split; [reflexivity|].
    apply (f_equal snd) in Hrun. simpl in Hrun. rewrite <- Hrun.
    vm_compute. reflexivity.
  - destruct (@vcf_iff_full_access Sample.runtime Sample.secondCoordinator 9
                (@run Response (@handleDownload Sample.runtime Sample.coordinator 7)
                      Sample.db).2)
      as (message & vcf & db' & Hrun & _ & _ & Hlate);
      [reflexivity|vm_compute; discriminate|].
    exists message, vcf, db'. split; [exact Hrun|].
    apply Hlate; [reflexivity|vm_compute; reflexivity].
Defined.

(** * Further properties of the handler *)

(** ** The store under any sequence of calls *)

Lemma evolves_trans (db1 db2 db3 : DB) :
  evolves db1 db2 → evolves db2 db3 → evolves db1 db3.
Proof.
  intros H12 H23 e l Hl. destruct (H12 e l Hl) as (l2 & Hl2 & Hsame2).
  destruct (H23 e l2 Hl2) as (l3 & Hl3 & Hsame3). exists l3. split; [done|].
  intros Hc. specialize (Hsame2 Hc). subst l2. by apply Hsame3.
Qed.

Section Store.
Context `{!Runtime}.

Lemma step_evolves (c c' : config) : step c c' → evolves c.2 c'.2.
Proof.
  intros [pool db req now|pool db i t code' db' _ Hcall|pool db regs']; simpl.
  - apply evolves_refl.
  - by eapply stepProg_evolves.
  - by apply evolves_logs.
Qed.

Lemma steps_evolve (c c' : config) : rtc step c c' → evolves c.2 c'.2.
Proof.
  induction 1 as [c|c1 c2 c3 Hstep _ IH]; [apply evolves_refl|].
  eapply evolves_trans; [by apply step_evolves|done].
Qed.

(** X2. Whatever the requests in flight do, and in whatever order, the
    record of an event is never deleted, and a claimed record keeps its
    three fields for good. *)
Theorem claimed_record_frozen (c c' : config) (e : string) (l : CoordinatorLog) :
  rtc step c c' →
  logs c.2 !! e = Some l →
  is_Some (logs c'.2 !! e)
  ∧ (vCardsDownloaded l = true → logs c'.2 !! e = Some l).
Proof.
  intros Hsteps Hl. destruct (steps_evolve c c' Hsteps e l Hl) as (l' & Hl' & Hsame).
  split; [by exists l'|]. intros Hc. by rewrite Hl', (Hsame Hc).
Qed.

End Store.

(** ** What a request in flight never does *)

Section Never.
Context `{!Runtime}.

Lemma served_respond_some (e : string) (admin : bool)
    (regs : list Registration) (isFirstDownload : bool) (l : CoordinatorLog) :
  served (respond e admin regs isFirstDownload (Some l)).
Proof.
  right. right. unfold respond.
  destruct admin, isFirstDownload; simpl; by eexists _, _, _.
Qed.

Lemma served_first (e : string) (regs : list Registration)
    (logDetails : option CoordinatorLog) :
  served (respond e false regs true logDetails).
Proof. right. right. by eexists _, _, _. Qed.

(** The call that finishes a request gives it a response that is not the
    500 one: where [logDetails] is read, the record of the event is there. *)
Lemma step_served (db db' : DB) (t : thread) (code' : prog Response)
    (r : Response) :
  at_point db t →
  stepProg (t_code t) db = Some (code', db') →
  code' = Ret r → served r.
Proof.
  intros Hat Hstep ->.
  destruct Hat as [Hc|regs Hc|regs Hc|regs Hc Hl|regs Hc Hl|regs Hadmin Hc Hl|r' Hc Hout];
    rewrite Hc in Hstep.
  - rewrite step_start in Hstep. destruct (authorized (t_req t)); [|done].
    destruct (registrations db (eventName (t_req t))); [|done].
    injection Hstep as <- _. right. by left.
  - rewrite step_ensure in Hstep.
    destruct (logs db !! eventName (t_req t)); [|done].
    injection Hstep as Hr _. by apply lockPhase_not_Ret in Hr.
  - rewrite step_create in Hstep.
    destruct (logs db !! eventName (t_req t)); [done|].
    injection Hstep as Hr _. by apply lockPhase_not_Ret in Hr.
  - rewrite step_refetch in Hstep.
    injection Hstep as Hr _. by apply lockPhase_not_Ret in Hr.
  - destruct Hl as [l Hl]. destruct (isAdmin (t_req t)) eqn:Hadmin.
    + rewrite step_lock_admin, Hl in Hstep by done. injection Hstep as <- _.
      apply served_respond_some.
    + rewrite step_lock_coordinator, Hl in Hstep by done.
      destruct (vCardsDownloaded l); [done|].
      injection Hstep as <- _. apply served_first.
  - rewrite step_lateRead in Hstep. unfold claimed in Hl.
    destruct (logs db !! eventName (t_req t)) as [l|]; [|done].
    injection Hstep as <- _. apply served_respond_some.
  - done.
Qed.

Lemma allServed_nil : allServed [].
Proof. intros k tk r Hk. by rewrite lookup_nil in Hk. Qed.

Lemma allServed_step (c c' : config) :
  invariant c → allServed c.1 → step c c' → allServed c'.1.
Proof.
  intros [Hat _] Hserved Hstep.
  destruct Hstep as [pool db req now|pool db i t code' db' Hi Hcall|pool db regs'];
    simpl in *.
  - intros k tk r [Hk|[_ Hk]]%lookup_app_Some Hr; [by eapply Hserved|].
    apply list_lookup_singleton_Some in Hk as [_ <-]. simpl in Hr.
    rewrite handleDownload_unfold in Hr.
    destruct (authorized req); [done|]. injection Hr as <-. by left.
  - intros k tk r Hk Hr. destruct (decide (i = k)) as [<-|Hne].
    + rewrite list_lookup_insert_eq in Hk by by eapply lookup_lt_Some.
      injection Hk as <-. simpl in Hr.
      by eapply (step_served db db' t code' r (Hat i t Hi)).
    + rewrite list_lookup_insert_ne in Hk by done. by eapply Hserved.
  - done.
Qed.

Lemma allServed_steps (c c' : config) :
  rtc step c c' → invariant c → allServed c.1 → allServed c'.1.
Proof.
  induction 1 as [c|c1 c2 c3 Hstep _ IH]; [done|]. intros Hinv Hserved.
  apply IH; [by eapply invariant_step|by eapply allServed_step].
Qed.

(** X1. In every interleaving of the calls of the requests, a finished
    request has answered 401, or the none-registered response, or a success
    with the export: the race on the creation of the lock record of an
    event, and the race on its claim, never reach the [catch] of the
    handler, and no request answers 500. *)
Theorem no_server_error (db0 : DB) (pool : list thread) (db : DB)
    (i : nat) (t : thread) (r : Response) :
  reachable db0 (pool, db) →
  pool !! i = Some t →
  t_code t = Ret r →
  served r ∧ (status r = 401 ∨ status r = 200) ∧ r ≠ serverError.
Proof.
  intros Hreach Hi Hr.
  assert (served r) as Hserved.
  { apply (allServed_steps _ _ Hreach (reachable_invariant db0 _ (rtc_refl _ _))
             (allServed_nil) i t r Hi Hr). }
  split; [done|].
  destruct Hserved as [->|[->|(message & regs & vcf & ->)]]; split; auto; done.
Qed.

End Never.

(** ** The footprint of a request *)

Section Footprint.
Context `{!Runtime}.

(** What one call of a request in flight does to the store: nothing, or it
    creates the missing record of its event, or it claims the unclaimed
    record of its event and finishes as the first coordinator. *)
Lemma call_effect (db db' : DB) (t : thread) (code' : prog Response) :
  at_point db t →
  stepProg (t_code t) db = Some (code', db') →
  db' = db
  ∨ (logs db !! eventName (t_req t) = None
     ∧ db' = withLogs db (<[eventName (t_req t) := newLog (eventName (t_req t))]>
                            (logs db)))
  ∨ (isAdmin (t_req t) = false
     ∧ ∃ l regs,
         logs db !! eventName (t_req t) = Some l
         ∧ vCardsDownloaded l = false
         ∧ db' = withLogs db (<[eventName (t_req t) :=
                                  claim l (coordinatorName (t_req t)) (t_now t)]>
                                (logs db))
         ∧ code' = Ret (respond (eventName (t_req t)) false regs true
                                (Some (claim l (coordinatorName (t_req t)) (t_now t))))).
Proof.
  intros Hat Hstep.
  destruct Hat as [Hc|regs Hc|regs Hc|regs Hc Hl|regs Hc Hl|regs Hadmin Hc Hl|r' Hc Hout];
    rewrite Hc in Hstep.
  - rewrite step_start in Hstep. destruct (authorized (t_req t)); [|done].
    injection Hstep as _ <-. by left.
  - rewrite step_ensure in Hstep. injection Hstep as _ <-. by left.
  - rewrite step_create in Hstep. injection Hstep as Hstep.
    destruct (logs db !! eventName (t_req t)); injection Hstep as _ <-;
      [by left|by right; left].
  - rewrite step_refetch in Hstep. injection Hstep as _ <-. by left.
  - destruct Hl as [l Hl]. destruct (isAdmin (t_req t)) eqn:Hadmin.
    + rewrite step_lock_admin in Hstep by done. injection Hstep as _ <-. by left.
    + rewrite step_lock_coordinator, Hl in Hstep by done.
      destruct (vCardsDownloaded l) eqn:Hcl; injection Hstep as <- <-; [by left|].
      right. right. split; [done|]. by exists l, regs.
  - rewrite step_lateRead in Hstep. injection Hstep as _ <-. by left.
  - done.
Qed.

Lemma run_handleDownload_store (req : Request) (now : Z) (db : DB) :
  (run (handleDownload req now) db).2 = db
  ∨ (run (handleDownload req now) db).2 = ensured db (eventName req)
  ∨ ∃ l, (run (handleDownload req now) db).2
         = withLogs (ensured db (eventName req))
                    (<[eventName req := l]> (logs (ensured db (eventName req)))).
Proof.
  rewrite run_handleDownload, run_resolveLock.
  destruct (authorized req); [|by left].
  destruct (registrations db (eventName req)) as [|reg regs]; [by left|].
  destruct (isAdmin req); [by right; left|].
  destruct (logs (ensured db (eventName req)) !! eventName req) as [lg|];
    [|by right; left].
  destruct (vCardsDownloaded lg); [by right; left|]. right. right. by eexists.
Qed.

Lemma ensured_other (db : DB) (e e' : string) :
  e' ≠ e → logs (ensured db e) !! e' = logs db !! e'.
Proof.
  intros Hne. unfold ensured. destruct (logs db !! e); [done|].
  simpl. by rewrite lookup_insert_ne.
Qed.

(** X6. A request reads and writes the lock record of the event it names,
    and no other: the record of every other event, and the registrations,
    are as before, after a request served alone and after each call of a
    request in flight. *)
Theorem other_events_untouched :
  (∀ (req : Request) (now : Z) (db : DB) (e' : string),
      e' ≠ eventName req →
      logs (run (handleDownload req now) db).2 !! e' = logs db !! e'
      ∧ registrations (run (handleDownload req now) db).2 = registrations db)
  ∧ (∀ (db0 : DB) (pool : list thread) (db db' : DB) (i : nat) (t : thread)
       (code' : prog Response) (e' : string),
        reachable db0 (pool, db) →
        pool !! i = Some t →
        stepProg (t_code t) db = Some (code', db') →
        e' ≠ eventName (t_req t) →
        logs db' !! e' = logs db !! e'
        ∧ registrations db' = registrations db).
Proof.
  split.
  - intros req now db e' Hne.
    destruct (run_handleDownload_store req now db) as [->|[->|[l ->]]].
    + done.
    + by rewrite ensured_other, ensured_registrations.
    + simpl. by rewrite lookup_insert_ne, ensured_other, ensured_registrations.
  - intros db0 pool db db' i t code' e' Hreach Hi Hstep Hne.
    destruct (reachable_invariant _ _ Hreach) as [Hat _].
    destruct (call_effect db db' t code' (Hat i t Hi) Hstep)
      as [->|[[_ ->]|(_ & l & regs & _ & _ & -> & _)]]; simpl.
    + done.
    + by rewrite lookup_insert_ne.
    + by rewrite lookup_insert_ne.
Qed.





End Footprint.

(** ** Requests one after the other *)


Lemma run_registrations {A : Type} (p : prog A) (db : DB) :
  registrations (run p db).2 = registrations db.
Proof.
  revert db. induction p as [a|e k IH|e k IH|e k IH|e n t k IH]; intros db; simpl.
  - done.
  - apply IH.
  - apply IH.
  - unfold dbCreate. destruct (logs db !! e); by rewrite IH.
  - unfold dbFindOneAndUpdate. destruct (logs db !! e) as [l|]; [|by rewrite IH].
    destruct (vCardsDownloaded l); by rewrite IH.
Qed.

Lemma sameLocks_claimed (db db' : DB) (e : string) :
  sameLocks db db' → claimed db' e = claimed db e.
Proof.
  intros Hsame. specialize (Hsame e). unfold claimed.
  destruct (logs db !! e) as [l|]; [by rewrite Hsame|].
  by destruct Hsame as [->| ->].
Qed.

Section Sequence.
Context `{!Runtime}.


Lemma runAll_registrations (reqs : list (Request * Z)) (db : DB) :
  registrations (runAll reqs db).2 = registrations db.
Proof.
  revert db. induction reqs as [|[req now] reqs IH]; intros db; simpl; [done|].
  pose proof (run_registrations (handleDownload req now) db) as Hone.
  destruct (run (handleDownload req now) db) as [r db1].
  specialize (IH db1). destruct (runAll reqs db1) as [rs db2]. simpl in *.
  congruence.
Qed.

(** The coordinator who finds the lock unclaimed. *)
Lemma run_first (req : Request) (now : Z) (db : DB) :
  authorized req = true → isAdmin req = false →
  registrations db (eventName req) ≠ [] →
  claimed db (eventName req) = false →
  (run (handleDownload req now) db).1
  = success firstMessage
            (xlsxBase64 (buildWorksheet (registrations db (eventName req))))
            (JString (vCardContent (eventName req)
                                   (registrations db (eventName req))))
  ∧ logs (run (handleDownload req now) db).2 !! eventName req
    = Some (claim (default (newLog (eventName req)) (logs db !! eventName req))
                  (coordinatorName req) now).
Proof.
  intros Hauth Hadmin Hregs Hfree.
  rewrite run_handleDownload, Hauth, run_resolveLock, Hadmin, ensured_lookup.
  destruct (registrations db (eventName req)) as [|reg regs]; [done|].
  unfold claimed in Hfree.
  destruct (logs db !! eventName req) as [l|]; simpl.
  - rewrite Hfree. simpl. split; [done|]. apply lookup_insert_eq.
  - split; [done|]. apply lookup_insert_eq.
Qed.



(** X4. Admin requests, however many, do not take the first download: the
    coordinator who comes after them on an unclaimed event is the first
    coordinator, and gets the cards. *)
Theorem admins_leave_first_download (admins : list (Request * Z)) (db : DB)
    (req : Request) (now : Z) :
  Forall (λ rq, isAdmin rq.1 = true) admins →
  authorized req = true → isAdmin req = false →
  registrations db (eventName req) ≠ [] →
  claimed db (eventName req) = false →
  (run (handleDownload req now) (runAll admins db).2).1
  = success firstMessage
            (xlsxBase64 (buildWorksheet (registrations db (eventName req))))
            (JString (vCardContent (eventName req)
                                   (registrations db (eventName req)))).
Proof.
  intros Hadmins Hauth Hadmin Hregs Hfree.
  pose proof (runAll_admin_sameLocks admins db Hadmins) as Hsame.
  pose proof (runAll_registrations admins db) as Hr.
  destruct (run_first req now (runAll admins db).2 Hauth Hadmin) as [-> _].
  - by rewrite Hr.
  - by rewrite (sameLocks_claimed db).
  - by rewrite Hr.
Qed.

(** X5. An admin request on an event with registrations always gets the
    export and the cards, and its message tells the state of the lock: the
    name and the time of the first coordinator when the lock is claimed, and
    the not-yet-downloaded note when it is not, also when the event had no
    lock record before this request. *)
Theorem admin_response (req : Request) (now : Z) (db : DB) :
  isAdmin req = true →
  registrations db (eventName req) ≠ [] →
  (run (handleDownload req now) db).1
  = success
      match logs db !! eventName req with
      | Some l =>
          if vCardsDownloaded l
          then "ADMIN MODE: Retrieved all data. (Note: Originally downloaded by "
               +:+ JS.interpolate (firstDownloaderName l)
               +:+ " at " +:+ toLocaleString (downloadTime l) +:+ ")"
          else adminFreshMessage
      | None => adminFreshMessage
      end
      (xlsxBase64 (buildWorksheet (registrations db (eventName req))))
      (JString (vCardContent (eventName req) (registrations db (eventName req)))).
Proof.
  intros Hadmin Hregs.
  rewrite run_handleDownload, run_resolveLock, ensured_lookup.
  unfold authorized. rewrite Hadmin. simpl.
  destruct (registrations db (eventName req)) as [|reg regs]; [done|].
  by destruct (logs db !! eventName req) as [l|].
Qed.

(** X8. The passkey is checked against the secret of [coordsValue], and the
    registrations and the lock are those of [eventName]; nothing relates the
    two. A coordinator that is authorized for one request is served the same
    way for any event name and any coordinator name: on an event with
    registrations and an unclaimed lock it gets the cards of that event and
    claims its lock. *)
Theorem passkey_not_bound_to_event (req : Request) (now : Z) (db : DB)
    (event name : string) :
  authorized req = true → isAdmin req = false →
  registrations db event ≠ [] →
  claimed db event = false →
  authorized (sentFor req event name) = true
  ∧ (run (handleDownload (sentFor req event name) now) db).1
    = success firstMessage
              (xlsxBase64 (buildWorksheet (registrations db event)))
              (JString (vCardContent event (registrations db event)))
  ∧ logs (run (handleDownload (sentFor req event name) now) db).2 !! event
    = Some (claim (default (newLog event) (logs db !! event)) name now).
Proof.
  intros Hauth Hadmin Hregs Hfree. split; [done|].
  by apply (run_first (sentFor req event name) now db).
Qed.

End Sequence.

(** ** The shape of the identifiers *)

Lemma allDigits_removeNonDigits (s : string) :
  allDigits (JS.removeNonDigits s) = true.
Proof.
  induction s as [|c s IH]; simpl; [done|].
  destruct (JS.isDigit c) eqn:Hc; simpl; [by rewrite Hc|done].
Qed.

Lemma allDigits_dropChars (n : nat) (s : string) :
  allDigits s = true → allDigits (JS.dropChars n s) = true.
Proof.
  revert s. induction n as [|n IH]; intros [|c s]; simpl; try done.
  intros [_ Hs]%andb_true_iff. by apply IH.
Qed.

Lemma length_dropChars (n : nat) (s : string) :
  String.length (JS.dropChars n s) = String.length s - n.
Proof. revert s. induction n as [|n IH]; intros [|c s]; simpl; auto with lia. Qed.

Lemma substring_dropChars (n : nat) (s : string) :
  String.substring 0 n s +:+ JS.dropChars n s = s.
Proof.
  revert s. induction n as [|n IH]; intros [|c s]; try done.
  simpl String.substring. simpl JS.dropChars. by rewrite append_cons, IH.
Qed.





(** X9. For a registration that is not INTERNAL the identifier is the
    prefix, then EXT, then a suffix of the digits of the phone of the
    captain: digits only, eight of them when the phone has eight digits or
    more, and all the digits of the phone (none for a phone without digits)
    when it has fewer. *)
Theorem external_suffix_digits (eventName : string) (reg : Registration) :
  participantType reg ≠ "INTERNAL" →
  ∃ front suffix,
    uniqueId eventName reg
    = JS.toLowerCase (JS.substring 0 2 eventName) +:+ "EXT" +:+ suffix
    ∧ JS.removeNonDigits (capPhone reg) = front +:+ suffix
    ∧ allDigits suffix = true
    ∧ String.length suffix
      = 8 `min` String.length (JS.removeNonDigits (capPhone reg)).
Proof.
  intros Htype. unfold uniqueId.
  destruct (String.eqb_spec (participantType reg) "INTERNAL") as [|_]; [done|].
  unfold JS.slice. simpl Z.ltb. cbv iota.
  set (digits := JS.removeNonDigits (capPhone reg)).
  set (n := Z.to_nat (Z.max (Z.of_nat (String.length digits) + -8) 0)).
  exists (String.substring 0 n digits), (JS.dropChars n digits).
  split; [done|]. split; [by rewrite substring_dropChars|].
  split; [apply allDigits_dropChars, allDigits_removeNonDigits|].
  rewrite length_dropChars. unfold n. lia.
Qed.


(** ** The text of the cards *)

Lemma str_append_assoc (a b c : string) : (a +:+ b) +:+ c = a +:+ (b +:+ c).
Proof. induction a as [|x a IH]; [done|]. by rewrite !append_cons, IH. Qed.

Lemma str_append_empty_r (a : string) : a +:+ "" = a.
Proof. induction a as [|x a IH]; [done|]. by rewrite append_cons, IH. Qed.

Lemma foldl_append (acc : string) (l : list string) :
  foldl String.append acc l = acc +:+ foldr String.append "" l.
Proof.
  revert acc. induction l as [|x l IH]; intros acc; simpl.
  - by rewrite str_append_empty_r.
  - by rewrite IH, str_append_assoc.
Qed.

Lemma foldr_append (l : list string) (rest : string) :
  foldr String.append rest l = foldr String.append "" l +:+ rest.
Proof.
  induction l as [|x l IH]; simpl; [done|]. by rewrite IH, str_append_assoc.
Qed.

Lemma vCardContent_foldl (eventName : string) (acc : string)
    (registrations : list Registration) :
  foldl (λ content reg, foldl String.append content (cardsOf eventName reg))
        acc registrations
  = acc +:+ foldr String.append "" (flat_map (cardsOf eventName) registrations).
Proof.
  revert acc. induction registrations as [|reg regs IH]; intros acc.
  - simpl. by rewrite str_append_empty_r.
  - cbn [foldl flat_map]. rewrite IH, foldl_append, foldr_app.
    rewrite (foldr_append (cardsOf eventName reg)
               (foldr String.append "" (flat_map (cardsOf eventName) regs))).
    by rewrite str_append_assoc.
Qed.

Lemma cardsOf_length (eventName : string) (reg : Registration) :
  (1 ≤ length (cardsOf eventName reg) ≤ 2)%nat.
Proof.
  unfold cardsOf. destruct (teamMembers reg) as [[|m ms]|]; simpl; try lia.
  destruct (memPhone m) as [[|c p]|]; simpl; lia.
Qed.

(** X11. The text of the cards is the cards of the registrations one after
    the other, in the order of the registrations: the text for two lists put
    end to end is the two texts put end to end. Each registration gives one
    card or two, and the text is empty only when there is no registration. *)
Theorem vCardContent_app (eventName : string)
    (regs1 regs2 : list Registration) :
  vCardContent eventName (regs1 ++ regs2)
  = vCardContent eventName regs1 +:+ vCardContent eventName regs2
  ∧ vCardContent eventName regs1
    = foldr String.append "" (flat_map (cardsOf eventName) regs1)
  ∧ (length regs1 ≤ length (flat_map (cardsOf eventName) regs1)
     ≤ 2 * length regs1)%nat
  ∧ (vCardContent eventName regs1 = "" ↔ regs1 = []).
Proof.
  assert (∀ regs, vCardContent eventName regs
                  = foldr String.append "" (flat_map (cardsOf eventName) regs))
    as Hflat.
  { intros regs. unfold vCardContent. by rewrite vCardContent_foldl. }
  split; [|split; [apply Hflat|split]].
  - unfold vCardContent at 1. rewrite foldl_app.
    fold (vCardContent eventName regs1). rewrite vCardContent_foldl.
    by rewrite <- Hflat.
  - induction regs1 as [|reg regs IH]; [simpl; lia|].
    cbn [flat_map]. rewrite length_app, length_cons.
    pose proof (cardsOf_length eventName reg). lia.
  - split; [|by intros ->].
    destruct regs1 as [|reg regs]; [done|]. rewrite Hflat. simpl.
    unfold cardsOf. simpl. intros Heq. discriminate Heq.
Qed.

(** ** The layout of the sheet *)

Lemma memberKeys_elem (start n : nat) (k : string) :
  k ∈ key <$> flat_map memberColumns (seq start n) →
  ∃ j p, start ≤ j < start + n ∧ k = memberKey j (partKey p).
Proof.
  revert start. induction n as [|n IH]; intros start Hk.
  - simpl in Hk. by apply elem_of_nil in Hk.
  - change (flat_map memberColumns (seq start (S n)))
      with (memberColumns start ++ flat_map memberColumns (seq (S start) n)) in Hk.
    rewrite fmap_app in Hk. apply elem_of_app in Hk as [Hk|Hk].
    + simpl in Hk. rewrite !elem_of_cons in Hk.
      destruct Hk as [->|[->|[->|Hk]]].
      * exists start, PName. split; [lia|done].
      * exists start, PRoll. split; [lia|done].
      * exists start, PPhone. split; [lia|done].
      * by apply elem_of_nil in Hk.
    + destruct (IH (S start) Hk) as (j & p & Hj & ->).
      exists j, p. split; [lia|done].
Qed.

Lemma memberKeys_NoDup (start n : nat) :
  NoDup (key <$> flat_map memberColumns (seq start n)).
Proof.
  revert start. induction n as [|n IH]; intros start; [constructor|].
  change (flat_map memberColumns (seq start (S n)))
    with (memberColumns start ++ flat_map memberColumns (seq (S start) n)).
  rewrite fmap_app. apply NoDup_app. split; [|split; [|apply IH]].
  - simpl. repeat constructor; rewrite ?elem_of_cons, ?elem_of_nil.
    + intros [Heq|[Heq|[]]].
      * by apply (memberKey_inj _ _ PName PRoll) in Heq as [_ ?].
      * by apply (memberKey_inj _ _ PName PPhone) in Heq as [_ ?].
    + intros [Heq|[]].
      by apply (memberKey_inj _ _ PRoll PPhone) in Heq as [_ ?].
    + intros [].
  - intros k Hk1 Hk2.
    destruct (memberKeys_elem start 1 k) as (j1 & p1 & Hj1 & ->).
    { exact Hk1. }
    destruct (memberKeys_elem (S start) n _ Hk2) as (j2 & p2 & Hj2 & Heq).
    apply memberKey_inj in Heq as [? _]. lia.
Qed.

(** X13. The keys of the columns of the sheet are pairwise distinct, for
    every number of member slots: no member column shares its key with
    another member column or with one of the six fixed columns, so no cell
    of a row is written under the key of another column. *)
Theorem column_keys_distinct (maxTeamMembers : nat) :
  NoDup (key <$> sheetColumns maxTeamMembers).
Proof.
  unfold sheetColumns. rewrite fmap_app. apply NoDup_app.
  split; [|split; [|apply memberKeys_NoDup]].
  - by apply (bool_decide_unpack _).
  - intros k Hk1 Hk2.
    destruct (memberKeys_elem 1 maxTeamMembers k Hk2) as (j & p & _ & ->).
    simpl in Hk1. rewrite !elem_of_cons, elem_of_nil, memberKey_head in Hk1.
    destruct Hk1 as [Heq|[Heq|[Heq|[Heq|[Heq|[Heq|[]]]]]]]; discriminate Heq.
Qed.

Section Rows.
Context `{!Runtime}.

Lemma not_memberKey (k : string) :
  (∀ c rest, k = String c rest → c ≠ "m"%char) →
  ∀ i what, k ≠ memberKey i what.
Proof. intros Hk i what Heq. rewrite memberKey_head in Heq. by eapply Hk. Qed.

(** X12. The sheet has one row for each registration, in their order, and
    every row has one cell for each column. The first six cells of a row
    always hold the team name, the name and the phone of the captain, the
    roll of the captain or EXTERNAL, the participant type and the formatted
    registration time, whatever the team members are: the cells of the
    members never replace them. *)
Theorem fixed_cells (registrations : list Registration) :
  let ws := buildWorksheet registrations in
  length (renderSheet ws) = length registrations
  ∧ Forall (λ row, length row = 6 + 3 * maxTeamMembers registrations)
           (renderSheet ws)
  ∧ ∀ i reg,
      registrations !! i = Some reg →
      take 6 <$> renderSheet ws !! i
      = Some [Some (teamName reg); Some (capName reg); Some (capPhone reg);
              Some (if String.eqb (participantType reg) "INTERNAL"
                    then capRoll reg else "EXTERNAL");
              Some (participantType reg);
              Some (toLocaleString (Some (createdAt reg)))].
Proof.
  cbv zeta. unfold renderSheet, buildWorksheet. cbn [columns rows].
  split; [by rewrite !length_fmap|]. split.
  - apply Forall_fmap, Forall_fmap, Forall_forall. intros reg _.
    unfold compose, renderRow. by rewrite length_fmap, sheetColumns_length.
  - intros i reg Hreg. rewrite !list_lookup_fmap, Hreg.
    change (Some (take 6 (renderRow (sheetColumns (maxTeamMembers registrations))
                                    (rowDataOf reg))) = Some
      [Some (teamName reg); Some (capName reg); Some (capPhone reg);
       Some (if String.eqb (participantType reg) "INTERNAL"
             then capRoll reg else "EXTERNAL");
       Some (participantType reg);
       Some (toLocaleString (Some (createdAt reg)))]).
    f_equal. unfold renderRow, sheetColumns. rewrite fmap_app.
    rewrite take_app_length' by done. simpl.
    rewrite !rowDataOf_fixed by (apply not_memberKey; by intros c rest [= <- _]).
    by simplify_map_eq.
Qed.

End Rows.

(** ** The further properties on the sample data *)

Lemma no_server_error_witness :
  let second :=
    (@run Response (@handleDownload Sample.runtime Sample.secondCoordinator 9%Z)
       (@run Response (@handleDownload Sample.runtime Sample.coordinator 7%Z)
             Sample.db).2).1 in
  @served Sample.runtime second
  ∧ (status second = 401 ∨ status second = 200)
  ∧ second ≠ serverError.
Proof.
  exact (@no_server_error Sample.runtime Sample.db _ _ 1 _ _
           (@runPool_reachable Sample.runtime
              [(Sample.coordinator, 7%Z); (Sample.secondCoordinator, 9%Z)] Sample.db)
           eq_refl eq_refl).
Defined.

Lemma claimed_record_frozen_witness :
  let claimedDb :=
    (@run Response (@handleDownload Sample.runtime Sample.coordinator 7%Z) Sample.db).2 in
  let later :=
    @runPool Sample.runtime [(Sample.secondCoordinator, 9%Z); (Sample.admin, 10%Z)]
             claimedDb in
  is_Some (logs later.2 !! "Hackathon")
  ∧ logs later.2 !! "Hackathon" = Some (claim (newLog "Hackathon") "Carol" 7).
Proof.
  cbv zeta.
  destruct (@claimed_record_frozen Sample.runtime
              ([], (@run Response (@handleDownload Sample.runtime Sample.coordinator 7%Z)
                         Sample.db).2)
              _ "Hackathon" (claim (newLog "Hackathon") "Carol" 7)
              (@runPool_steps Sample.runtime
                 [(Sample.secondCoordinator, 9%Z); (Sample.admin, 10%Z)] [] _)
              eq_refl) as [Hsome Hsame].
  split; [exact Hsome|exact (Hsame eq_refl)].
Defined.


Lemma admins_leave_first_download_witness :
  (@run Response (@handleDownload Sample.runtime Sample.coordinator 7%Z)
     (@runAll Sample.runtime [(Sample.admin, 5%Z); (Sample.admin, 6%Z)] Sample.db).2).1
  = success firstMessage "UEsDBA=="
            (JString (vCardContent "Hackathon" [Sample.internal; Sample.external])).
Proof.
  apply (@admins_leave_first_download Sample.runtime
           [(Sample.admin, 5%Z); (Sample.admin, 6%Z)] Sample.db Sample.coordinator 7%Z);
    first [reflexivity | discriminate | repeat constructor].
Defined.

Lemma admin_response_witness :
  (@run Response (@handleDownload Sample.runtime Sample.admin 8%Z) Sample.db).1
  = success adminFreshMessage "UEsDBA=="
            (JString (vCardContent "Hackathon" [Sample.internal; Sample.external])).
Proof.
  apply (@admin_response Sample.runtime Sample.admin 8%Z Sample.db);
    first [reflexivity | discriminate].
Defined.

Lemma other_events_untouched_witness :
  logs (@run Response (@handleDownload Sample.runtime Sample.coordinator 7%Z)
          Sample.db).2 !! "Chess" = logs Sample.db !! "Chess"
  ∧ registrations (@run Response (@handleDownload Sample.runtime Sample.coordinator 7%Z)
                     Sample.db).2 = registrations Sample.db.
Proof.
  apply (proj1 (@other_events_untouched Sample.runtime) Sample.coordinator 7%Z
           Sample.db "Chess").
  discriminate.
Defined.


Lemma passkey_not_bound_to_event_witness :
  @authorized Sample.runtime (sentFor Sample.emptyEvent "Hackathon" "Zed") = true
  ∧ (@run Response
       (@handleDownload Sample.runtime (sentFor Sample.emptyEvent "Hackathon" "Zed") 7%Z)
       Sample.db).1
    = success firstMessage "UEsDBA=="
              (JString (vCardContent "Hackathon" [Sample.internal; Sample.external]))
  ∧ logs (@run Response
            (@handleDownload Sample.runtime
               (sentFor Sample.emptyEvent "Hackathon" "Zed") 7%Z)
            Sample.db).2 !! "Hackathon"
    = Some (claim (newLog "Hackathon") "Zed" 7).
Proof.
  apply (@passkey_not_bound_to_event Sample.runtime Sample.emptyEvent 7%Z Sample.db
           "Hackathon" "Zed"); first [reflexivity | discriminate].
Defined.

Lemma external_suffix_digits_witness :
  ∃ front suffix,
    uniqueId "Hackathon" Sample.external
    = JS.toLowerCase (JS.substring 0 2 "Hackathon") +:+ "EXT" +:+ suffix
    ∧ JS.removeNonDigits (capPhone Sample.external) = front +:+ suffix
    ∧ allDigits suffix = true
    ∧ String.length suffix
      = 8 `min` String.length (JS.removeNonDigits (capPhone Sample.external)).
Proof.
  apply (external_suffix_digits "Hackathon" Sample.external). discriminate.
Defined.

Lemma fixed_cells_witness :
  take 6 <$> renderSheet (@buildWorksheet Sample.runtime
                            [Sample.internal; Sample.external]) !! 1
  = Some [Some "Guests"; Some "Eve"; Some "+91 99999-12345"; Some "EXTERNAL";
          Some "EXTERNAL"; Some "1700000001000"].
Proof.
  exact (proj2 (proj2 (@fixed_cells Sample.runtime [Sample.internal; Sample.external]))
           1 Sample.external eq_refl).
Defined.
